(** * somafm-cli-go: the control loop of the terminal player

    A shallow embedding of [main.go]: the application [model], the
    messages of the Bubble Tea runtime, the commands [Update] hands back to
    the runtime, [Update] itself and [View].

    Conventions of the embedding.
    - Go's [int] is [Z].  The only arithmetic on it is [cursor--] under
      [cursor > 0] and [cursor++] under [cursor < len(channels)-1], so no
      operation can leave the 64-bit range and wrap-around never fires.
    - A Go [string] is a [string] of bytes; [len] is [String.length].
    - A nil-able pointer or interface value is an [option].
    - A run-time panic (index out of range) is the outcome [Panic].
    - What lives outside the repository (HTTP, the mpv process, lipgloss,
      the rune counting of [fmt]) is an explicit argument. *)

From Stdlib Require Import String Ascii List ZArith Bool Lia.
From Stdlib Require Import DecimalString.
Import ListNotations.
Open Scope string_scope.
Open Scope list_scope.
Open Scope Z_scope.

(** ** Data model *)

(** [type Channel struct]. *)
Record Channel := mkChannel {
  ID : string;
  Title : string;
  Description : string;
  Genre : string;
  Image : string;
  DJ : string;
  Listeners : Z;
  FastPLS : string
}.

(** [type playerState int] with [stopped = iota] and [playing]. *)
Inductive playerState := stopped | playing.

Definition titleWidth : Z := 30.
Definition genreWidth : Z := 25.
Definition statsWidth : Z := 10.

(** A [[]Channel]: the identity of its backing array and its elements.
    Every channel slice of the program starts at offset 0 of the array the
    XML decoder allocated for it; the nil slice has no elements. *)
Record slice := mkSlice {
  s_array : nat;
  s_elems : list Channel
}.

Definition nil_slice : slice := mkSlice 0 [].

(** [len(s)]. *)
Definition len (s : slice) : Z := Z.of_nat (length (s_elems s)).

(** A non-nil [*Channel] obtained as [&s[i]]: it names a cell of a backing
    array.  The arrays are never written after the fetch, so the pointer
    carries the value of its cell for dereferencing. *)
Record ChannelPtr := mkPtr {
  p_array : nat;
  p_index : nat;
  p_target : Channel
}.

(** Pointer comparison [p == q]: same cell. *)
Definition ptr_eqb (p q : option ChannelPtr) : bool :=
  match p, q with
  | None, None => true
  | Some a, Some b =>
      Nat.eqb (p_array a) (p_array b) && Nat.eqb (p_index a) (p_index b)
  | _, _ => false
  end.

(** The external player process, [*exec.Cmd] once non-nil: its identity and
    whether its [Process] field is set. *)
Record ExecCmd := mkExec {
  x_id : nat;
  x_has_process : bool
}.

(** A Go [error] value that is not nil, by its message. *)
Definition Error := string.

(** [type model struct]. *)
Record model := mkModel {
  channels : slice;
  cursor : Z;
  selected : option ChannelPtr;
  err : option Error;
  loading : bool;
  playerSt : playerState;
  player : option ExecCmd
}.

Definition set_cursor (m : model) (c : Z) : model :=
  mkModel (channels m) c (selected m) (err m) (loading m) (playerSt m) (player m).
Definition set_selected (m : model) (s : option ChannelPtr) : model :=
  mkModel (channels m) (cursor m) s (err m) (loading m) (playerSt m) (player m).
Definition set_err (m : model) (e : option Error) : model :=
  mkModel (channels m) (cursor m) (selected m) e (loading m) (playerSt m) (player m).
Definition set_loading (m : model) (b : bool) : model :=
  mkModel (channels m) (cursor m) (selected m) (err m) b (playerSt m) (player m).
Definition set_playerSt (m : model) (p : playerState) : model :=
  mkModel (channels m) (cursor m) (selected m) (err m) (loading m) p (player m).
Definition set_player (m : model) (p : option ExecCmd) : model :=
  mkModel (channels m) (cursor m) (selected m) (err m) (loading m) (playerSt m) p.
Definition set_channels (m : model) (s : slice) : model :=
  mkModel s (cursor m) (selected m) (err m) (loading m) (playerSt m) (player m).

(** [initialModel]: every field zero except [loading]. *)
Definition initialModel : model :=
  mkModel nil_slice 0 None None true stopped None.

(** ** Messages and commands *)

(** The [tea.Msg] values [Update] dispatches on.  [KeyMsg] carries the
    result of [msg.String()]; the payloads have the Go types of the message
    structs, so a pointer or an error inside a message may be nil. *)
Inductive Msg :=
| KeyMsg (key : string)
| startPlaybackMsg (p : option ExecCmd)
| stopPlaybackMsg
| playbackErrorMsg (e : option Error)
| channelsMsg (cs : slice)
| errMsg (e : option Error)
| otherMsg.

(** The [tea.Cmd] values the program builds: the four command functions of
    [main.go], the closure of line 196 that reports a resolution error,
    [tea.Quit] and [tea.Sequence]. *)
#[warnings="-register-all"]
Inductive Cmd :=
| fetchChannels
| teaQuit
| stopPlayback (cmd : option ExecCmd)
| startPlayback (streamURL : string)
| emitErr (e : Error)
| teaSequence (cmds : list Cmd).

(** Outcome of a call: a value, or a run-time panic. *)
Inductive outcome (A : Type) :=
| Ret (a : A)
| Panic.
Arguments Ret {A} a.
Arguments Panic {A}.

Definition bind {A B} (o : outcome A) (k : A -> outcome B) : outcome B :=
  match o with
  | Ret a => k a
  | Panic => Panic
  end.

Notation "x <- o ;; k" := (bind o (fun x => k))
  (at level 61, o at next level, right associativity).

(** [&s[i]]: bounds-checked, panics outside [0 <= i < len(s)]. *)
Definition addr_index (s : slice) (i : Z) : outcome ChannelPtr :=
  if (i <? 0) || (len s <=? i) then Panic
  else match nth_error (s_elems s) (Z.to_nat i) with
       | Some c => Ret (mkPtr (s_array s) (Z.to_nat i) c)
       | None => Panic
       end.

(** The stream resolver as seen by one call of [Update]: the answer of
    [getStreamURL] to a playlist URL, a stream URL or a non-nil error. *)
Definition Resolver := string -> string + Error.

(** ** Update *)

Definition is_quit (k : string) : bool := (k =? "ctrl+c")%string || (k =? "q")%string.
Definition is_up (k : string) : bool := (k =? "up")%string || (k =? "k")%string.
Definition is_down (k : string) : bool := (k =? "down")%string || (k =? "j")%string.
Definition is_activate (k : string) : bool := (k =? "enter")%string || (k =? " ")%string.

(** Lines 188-202: the switch to the channel under the cursor. *)
Definition switchChannel (getStreamURL : Resolver) (m : model)
  : outcome (model * option Cmd) :=
  let cmds := match player m with
              | Some _ => [stopPlayback (player m)]
              | None => []
              end in
  p <- addr_index (channels m) (cursor m) ;;
  let m := set_selected m (Some p) in
  match getStreamURL (FastPLS (p_target p)) with
  | inr e => Ret (m, Some (emitErr e))
  | inl streamURL => Ret (m, Some (teaSequence (cmds ++ [startPlayback streamURL])))
  end.

(** Lines 182-202: [case "enter", " "].  The conjunction short-circuits, so
    the cell under the cursor is addressed only when the player is playing. *)
Definition activate (getStreamURL : Resolver) (m : model)
  : outcome (model * option Cmd) :=
  match playerSt m with
  | playing =>
      p <- addr_index (channels m) (cursor m) ;;
      if ptr_eqb (selected m) (Some p)
      then Ret (set_selected m None, Some (stopPlayback (player m)))
      else switchChannel getStreamURL m
  | stopped => switchChannel getStreamURL m
  end.

(** [func (m model) Update(msg tea.Msg) (tea.Model, tea.Cmd)]. *)
Definition Update (getStreamURL : Resolver) (m : model) (msg : Msg)
  : outcome (model * option Cmd) :=
  match msg with
  | KeyMsg key =>
      if is_quit key then
        match player m with
        | Some _ => Ret (m, Some (teaSequence [stopPlayback (player m); teaQuit]))
        | None => Ret (m, Some teaQuit)
        end
      else if is_up key then
        Ret (if 0 <? cursor m then set_cursor m (cursor m - 1) else m, None)
      else if is_down key then
        Ret (if cursor m <? len (channels m) - 1
             then set_cursor m (cursor m + 1) else m, None)
      else if is_activate key then activate getStreamURL m
      else Ret (m, None)
  | startPlaybackMsg p => Ret (set_player (set_playerSt m playing) p, None)
  | stopPlaybackMsg => Ret (set_player (set_playerSt m stopped) None, None)
  | playbackErrorMsg e =>
      Ret (set_player (set_playerSt (set_err m e) stopped) None, None)
  | channelsMsg cs => Ret (set_loading (set_channels m cs) false, None)
  | errMsg e => Ret (set_loading (set_err m e) false, None)
  | otherMsg => Ret (m, None)
  end.

(** [func (m model) Init() tea.Cmd]. *)
Definition Init (m : model) : Cmd := fetchChannels.

(** ** Effects

    [tea.Sequence] runs its commands one after the other, each to
    completion; [schedule] lists the leaf effects of a command in the order
    in which the runtime dispatches them. *)
Fixpoint schedule (c : Cmd) : list Cmd :=
  match c with
  | teaSequence cmds => flat_map schedule cmds
  | leaf => [leaf]
  end.

Definition scheduled (c : option Cmd) : list Cmd :=
  match c with
  | Some c => schedule c
  | None => []
  end.

Definition is_start (c : Cmd) : bool :=
  match c with startPlayback _ => true | _ => false end.
Definition is_stop (c : Cmd) : bool :=
  match c with stopPlayback _ => true | _ => false end.

(** [a] is dispatched strictly before [b] in the schedule [l]. *)
Definition before (a b : Cmd) (l : list Cmd) : Prop :=
  exists l1 l2 l3, l = l1 ++ a :: l2 ++ b :: l3.

(** The closure built by [startPlayback]: [started] is the result of
    [cmd.Start()], the error or the process now attached to the command. *)
Definition run_startPlayback (started : Error + nat) : Msg :=
  match started with
  | inl e => playbackErrorMsg (Some e)
  | inr id => startPlaybackMsg (Some (mkExec id true))
  end.

(** The closure built by [stopPlayback]: [killed] is the result of
    [cmd.Process.Kill()], consulted only for a command with a process. *)
Definition run_stopPlayback (cmd : option ExecCmd) (killed : option Error) : Msg :=
  match cmd with
  | Some c =>
      if x_has_process c then
        match killed with
        | Some e => playbackErrorMsg (Some e)
        | None => stopPlaybackMsg
        end
      else stopPlaybackMsg
  | None => stopPlaybackMsg
  end.

(** The closure of line 196. *)
Definition run_emitErr (e : Error) : Msg := errMsg (Some e).

(** [fetchChannels], from the result of the HTTP request and the decoding:
    a non-nil error or the decoded (and trimmed) channels. *)
Definition run_fetchChannels (fetched : Error + slice) : Msg :=
  match fetched with
  | inl e => errMsg (Some e)
  | inr cs => channelsMsg cs
  end.

(** The messages the runtime delivers to [Update]: key presses, messages of
    the runtime itself, and the completions above.  The commands of the
    program never put a nil pointer or a nil error into a message. *)
Definition delivered (msg : Msg) : bool :=
  match msg with
  | startPlaybackMsg None => false
  | playbackErrorMsg None => false
  | errMsg None => false
  | _ => true
  end.

(** One event of a run: the message and the answers the stream resolver
    would give while it is handled. *)
Definition event := (Resolver * Msg)%type.

(** The control loop: the messages handled in turn from a state; the
    result is the last state and the effects scheduled so far, in order.  A
    panic of [Update] ends the program. *)
Fixpoint run (m : model) (evs : list event) : outcome (model * list Cmd) :=
  match evs with
  | [] => Ret (m, [])
  | (getStreamURL, msg) :: evs =>
      r <- Update getStreamURL m msg ;;
      r' <- run (fst r) evs ;;
      Ret (fst r', scheduled (snd r) ++ snd r')
  end.

(** ** View *)

(** What [View] takes from outside the repository: the [Render] methods of
    the three lipgloss styles, and the rune count by which [fmt] pads a
    string to a width. *)
Record Terminal := mkTerminal {
  titleStyle : string -> string;
  selectedStyle : string -> string;
  errorStyle : string -> string;
  runeCount : string -> Z
}.

(** A terminal without styling, for text of one byte per rune. *)
Definition plainTerminal : Terminal :=
  mkTerminal (fun s => s) (fun s => s) (fun s => s)
             (fun s => Z.of_nat (String.length s)).

Fixpoint spaces (n : nat) : string :=
  match n with
  | O => ""
  | S n => String " " (spaces n)
  end.

(** [fmt.Sprintf("%-*s", width, s)]: [s] padded with spaces on the right. *)
Definition padRight (t : Terminal) (width : Z) (s : string) : string :=
  (s ++ spaces (Z.to_nat (width - runeCount t s)))%string.

(** The truncation of lines 248-250 and 254-256, on bytes. *)
Definition truncate (width : Z) (s : string) : string :=
  if width - 3 <? Z.of_nat (String.length s)
  then (substring 0 (Z.to_nat (width - 3)) s ++ "...")%string
  else s.

(** [fmt.Sprintf("%d", n)]. *)
Definition decimal (n : Z) : string := NilZero.string_of_int (Z.to_int n).

(** The body of the loop of lines 241-270 for the row [i]. *)
Definition row (t : Terminal) (m : model) (i : Z) (channel : Channel) : string :=
  let cur := if i =? cursor m then "> " else "  " in
  let title := padRight t titleWidth (truncate titleWidth (Title channel)) in
  let genre := padRight t genreWidth (truncate genreWidth (Genre channel)) in
  let line := (cur ++ title ++ " " ++ genre ++ " [" ++ decimal (Listeners channel)
               ++ "]" ++ String "010" "")%string in
  if i =? cursor m then selectedStyle t line else line.

Fixpoint rows (t : Terminal) (m : model) (i : Z) (cs : list Channel) : string :=
  match cs with
  | [] => ""
  | channel :: cs => (row t m i channel ++ rows t m (i + 1) cs)%string
  end.

Definition newline : string := String "010" "".

Definition banner (t : Terminal) (m : model) : string :=
  match playerSt m, selected m with
  | playing, Some p =>
      (newline ++ titleStyle t ("Now Playing: " ++ Title (p_target p)))%string
  | _, _ => ""
  end.

Definition footer : string :=
  (newline ++ "(↑/↓) Navigate • (enter) Play/Stop • (q) Quit" ++ newline)%string.

(** [func (m model) View() string]. *)
Definition View (t : Terminal) (m : model) : string :=
  if loading m then ("Loading channels..." ++ newline)%string
  else match err m with
       | Some e => errorStyle t ("Error: " ++ e ++ newline)%string
       | None =>
           (titleStyle t ("🎵 SomaFM Channels" ++ newline ++ newline)
            ++ rows t m 0 (s_elems (channels m))
            ++ banner t m
            ++ footer)%string
       end.

(** [needle] occurs in [hay]. *)
Fixpoint occurs (needle hay : string) : bool :=
  if prefix needle hay then true
  else match hay with
       | EmptyString => false
       | String _ rest => occurs needle rest
       end.

(** ** The stream resolver *)

Definition lf : ascii := "010"%char.

(** The longest prefix of [s] without a line feed. *)
Fixpoint upto_newline (s : string) : string :=
  match s with
  | EmptyString => EmptyString
  | String c rest =>
      if Ascii.eqb c lf then EmptyString else String c (upto_newline rest)
  end.

(** [s[n:]], for [n <= len(s)]. *)
Fixpoint skip (n : nat) (s : string) : string :=
  match n, s with
  | O, _ => s
  | S n, String _ rest => skip n rest
  | S _, EmptyString => EmptyString
  end.

(** The pattern [File1=(.+)] tried at the start of [line]: the literal,
    then one character or more, as many as there are; [.] takes every
    character but the line feed.  The result is the capture group. *)
Definition matchHere (line : string) : option string :=
  if prefix "File1=" line then
    match upto_newline (skip 6 line) with
    | EmptyString => None
    | g => Some g
    end
  else None.

(** [re.FindStringSubmatch(line)] for [re = File1=(.+)], as far as line
    124 uses it: [Some g] when there is a match ([len(matches) > 1]), with
    [g = matches[1]].  The pattern is not anchored and the leftmost match
    is the one reported. *)
Fixpoint re_FindStringSubmatch (line : string) : option string :=
  match matchHere line with
  | Some g => Some g
  | None =>
      match line with
      | EmptyString => None
      | String _ rest => re_FindStringSubmatch rest
      end
  end.

Definition noStreamURL : Error := "no stream URL found in PLS file".

(** The loop of lines 123-129 over the lines [scanner.Scan] yields, that
    is, the lines of the body up to its end, a read error or a line beyond
    the token limit of the scanner. *)
Fixpoint scanLines (lines : list string) : string + Error :=
  match lines with
  | [] => inr noStreamURL
  | line :: lines =>
      match re_FindStringSubmatch line with
      | Some url => inl url
      | None => scanLines lines
      end
  end.

(** [func getStreamURL(plsURL string) (string, error)]; [httpGet] is the
    answer of [http.Get]: an error, or a body given by its scanned lines. *)
Definition getStreamURL (httpGet : string -> Error + list string)
           (plsURL : string) : string + Error :=
  match httpGet plsURL with
  | inl e => inr e
  | inr lines => scanLines lines
  end.

(** ** The catalog fetcher *)

(** [strings.Index(s, "\n")]. *)
Fixpoint indexNewline (s : string) : Z :=
  match s with
  | EmptyString => -1
  | String c rest =>
      if Ascii.eqb c lf then 0
      else let i := indexNewline rest in
           if i =? -1 then -1 else i + 1
  end.

(** Lines 102-106: the new value of [FastPLS]. *)
Definition cutFastPLS (fastPLS : string) : string :=
  if (fastPLS =? "")%string then fastPLS
  else let idx := indexNewline fastPLS in
       if idx =? -1 then fastPLS
       else substring 0 (Z.to_nat idx) fastPLS.

(** The body of the loop of lines 100-107 for one channel; [trimSpace] is
    [strings.TrimSpace]. *)
Definition normalizeChannel (trimSpace : string -> string) (c : Channel) : Channel :=
  mkChannel (ID c) (Title c) (trimSpace (Description c)) (Genre c) (Image c)
            (DJ c) (Listeners c) (cutFastPLS (FastPLS c)).

(** [func fetchChannels() tea.Msg], from the answer of [http.Get] and of
    the XML decoder: the error of the request, the error of the decoder, or
    the decoded channels, which the loop rewrites in place. *)
Definition fetchChannels_msg (trimSpace : string -> string)
           (response : Error + (Error + slice)) : Msg :=
  match response with
  | inl e => errMsg (Some e)
  | inr (inl e) => errMsg (Some e)
  | inr (inr cs) =>
      channelsMsg (mkSlice (s_array cs)
                           (map (normalizeChannel trimSpace) (s_elems cs)))
  end.

(** ** Properties of states, messages and runs *)

(** Every message of the run satisfies [ok]. *)
Definition all_msgs (ok : Msg -> bool) (evs : list event) : Prop :=
  Forall (fun ev => ok (snd ev) = true) evs.

Definition all_delivered (evs : list event) : Prop := all_msgs delivered evs.

(** Invariant 1 of the data model. *)
Definition handle_iff_phase (m : model) : Prop :=
  player m <> None <-> playerSt m = playing.

Definition is_nav (k : string) : bool := is_up k || is_down k.

(** The event is a KeyUp or a KeyDown. *)
Definition nav_msg (msg : Msg) : bool :=
  match msg with
  | KeyMsg k => is_nav k
  | _ => false
  end.

(** The cursor lies in [0, max(N-1, 0)] for the [N] channels of the state. *)
Definition in_bounds (m : model) : Prop :=
  0 <= cursor m <= Z.max (len (channels m) - 1) 0.

(** The cursor is in bounds, the channels are those of [m0], and nothing at
    all has changed when [m0] has no channels. *)
Definition nav_inv (m0 m : model) : Prop :=
  in_bounds m /\ channels m = channels m0 /\
  (len (channels m0) = 0 -> m = m0).

(** The frame shows the last error, if there is one. *)
Definition shows_error (t : Terminal) (m : model) : bool :=
  match err m with
  | Some e => occurs e (View t m)
  | None => true
  end.

(** The frame has the title column of every channel. *)
Definition shows_channels (t : Terminal) (m : model) : bool :=
  forallb (fun c => occurs (truncate titleWidth (Title c)) (View t m))
          (s_elems (channels m)).

(** The message reports a failure and carries a new last error. *)
Definition is_failure (msg : Msg) : bool :=
  match msg with
  | errMsg _ | playbackErrorMsg _ => true
  | _ => false
  end.

(** ** Sample data *)

Definition grooveSalad : Channel :=
  mkChannel "groovesalad" "Groove Salad" "A nicely chilled plate of ambient beats"
            "ambient|electronica" "" "Rusty Hodge" 1200
            "https://api.somafm.com/groovesalad.pls".

Definition dronezone : Channel :=
  mkChannel "dronezone" "Drone Zone" "Atmospheric textures with minimal beats"
            "ambient|space" "" "Rusty Hodge" 800
            "https://api.somafm.com/dronezone.pls".

Definition lush : Channel :=
  mkChannel "lush" "Lush" "Sensuous and mellow vocals" "vocals" "" "Merin" 300
            "https://api.somafm.com/lush.pls".

Definition catalog : slice := mkSlice 1 [grooveSalad; dronezone; lush].

Definition mpv : ExecCmd := mkExec 7 true.

Definition resolveOk : Resolver := fun _ => inl "http://stream.example/a".
Definition resolveFail : Resolver := fun _ => inr "no stream URL found in PLS file".

(** Playing [grooveSalad], the first channel, with the cursor on it. *)
Definition playingFirst : model :=
  mkModel catalog 0 (Some (mkPtr 1 0 grooveSalad)) None false playing (Some mpv).

(** The catalog arrives, the first channel is activated and mpv starts. *)
Definition startFirst : list event :=
  [(resolveOk, channelsMsg catalog);
   (resolveOk, KeyMsg "enter");
   (resolveOk, run_startPlayback (inr 7%nat))].

Definition resolutionError : Error := "no stream URL found in PLS file".

Definition upAndDown : list event :=
  [(resolveOk, KeyMsg "up"); (resolveOk, KeyMsg "down"); (resolveOk, KeyMsg "j");
   (resolveOk, KeyMsg "j"); (resolveOk, KeyMsg "k"); (resolveOk, KeyMsg "down")].

Definition playbackError : Error := "exec: mpv: executable file not found in $PATH".

Definition catalogError : Error := "network unreachable".

Definition failThenRecover : list event :=
  [(resolveOk, run_fetchChannels (inr catalog));
   (resolveOk, KeyMsg "down");
   (resolveOk, run_startPlayback (inr 8%nat));
   (resolveOk, run_stopPlayback (Some mpv) None)].

(** ** Further properties and sample data *)

(** No occurrence of [File1=] in [line] is followed by a character other
    than a line feed. *)
Definition no_file1 (line : string) : Prop :=
  forall pre c rest, c <> lf ->
    line <> (pre ++ "File1=" ++ String c rest)%string.

(** A playlist as the SomaFM server sends it. *)
Definition samplePLS : list string :=
  ["[playlist]"; "numberofentries=2";
   "File1=https://ice5.somafm.com/groovesalad-128-mp3";
   "Title1=SomaFM: Groove Salad (#1): A nicely chilled plate";
   "Length1=-1";
   "File2=https://ice2.somafm.com/groovesalad-128-mp3";
   "Version=2"].

Definition sampleWeb : string -> Error + list string :=
  fun url => if (url =? "https://api.somafm.com/groovesalad.pls")%string
             then inr samplePLS
             else inl "Get: dial tcp: lookup failed".

(** The cursor is the index of a channel. *)
Definition ready (m : model) : Prop := 0 <= cursor m < len (channels m).

(** The message does not replace the catalog. *)
Definition keeps_catalog (msg : Msg) : bool :=
  match msg with
  | channelsMsg _ => false
  | _ => true
  end.

Definition busySession : list event :=
  [(resolveOk, KeyMsg "enter"); (resolveOk, stopPlaybackMsg);
   (resolveOk, run_startPlayback (inr 8%nat)); (resolveOk, KeyMsg "j");
   (resolveFail, KeyMsg " "); (resolveOk, run_emitErr noStreamURL);
   (resolveOk, KeyMsg "j"); (resolveOk, KeyMsg "j"); (resolveOk, KeyMsg "enter");
   (resolveOk, KeyMsg "q")].

Definition shrinkCatalog : list event :=
  [(resolveOk, channelsMsg catalog); (resolveOk, KeyMsg "down");
   (resolveOk, KeyMsg "down"); (resolveOk, channelsMsg (mkSlice 2 [lush]));
   (resolveOk, KeyMsg "up"); (resolveOk, KeyMsg "up"); (resolveOk, KeyMsg "up")].

(** The state [shrinkCatalog] ends in: the second catalog, cursor back at 0. *)
Definition shrunk : model :=
  mkModel (mkSlice 2 [lush]) 0 None None false stopped None.

(** The stop command for the handle of [m], if it has one: [cmds] after
    lines 188-191. *)
Definition stop_current (m : model) : list Cmd :=
  match player m with
  | Some _ => [stopPlayback (player m)]
  | None => []
  end.

Definition stoppedFirst : model :=
  mkModel catalog 0 None None false stopped None.

Definition afterFailure : list event :=
  [(resolveOk, KeyMsg "down"); (resolveOk, KeyMsg "enter");
   (resolveOk, run_startPlayback (inr 8%nat)); (resolveOk, KeyMsg "up")].

(** ** Basic facts about [Update] *)

Lemma is_activate_cases k :
  is_activate k = true -> k = "enter" \/ k = " ".
Proof.
  unfold is_activate. intros H.
  apply orb_true_iff in H. destruct H as [H | H];
    apply String.eqb_eq in H; auto.
Qed.

Lemma is_up_cases k : is_up k = true -> k = "up" \/ k = "k".
Proof.
  unfold is_up. intros H.
  apply orb_true_iff in H. destruct H as [H | H];
    apply String.eqb_eq in H; auto.
Qed.

Lemma is_down_cases k : is_down k = true -> k = "down" \/ k = "j".
Proof.
  unfold is_down. intros H.
  apply orb_true_iff in H. destruct H as [H | H];
    apply String.eqb_eq in H; auto.
Qed.

Lemma Update_activate r m k :
  is_activate k = true -> Update r m (KeyMsg k) = activate r m.
Proof.
  intros H. destruct (is_activate_cases k H); subst; reflexivity.
Qed.

Lemma Update_up r m k :
  is_up k = true ->
  Update r m (KeyMsg k) =
  Ret (if 0 <? cursor m then set_cursor m (cursor m - 1) else m, None).
Proof.
  intros H. destruct (is_up_cases k H); subst; reflexivity.
Qed.

Lemma Update_down r m k :
  is_down k = true ->
  Update r m (KeyMsg k) =
  Ret (if cursor m <? len (channels m) - 1
       then set_cursor m (cursor m + 1) else m, None).
Proof.
  intros H. destruct (is_down_cases k H); subst; reflexivity.
Qed.

(** Every completion of a command of the program is a delivered message. *)
Lemma completions_delivered :
  (forall started, delivered (run_startPlayback started) = true) /\
  (forall cmd killed, delivered (run_stopPlayback cmd killed) = true) /\
  (forall e, delivered (run_emitErr e) = true) /\
  (forall fetched, delivered (run_fetchChannels fetched) = true).
Proof.
  repeat split.
  - intros [e | id]; reflexivity.
  - intros [c |] killed; simpl; [| reflexivity].
    destruct (x_has_process c); [destruct killed |]; reflexivity.
  - intros [e | cs]; reflexivity.
Qed.

(** The shapes [switchChannel] and [activate] can return. *)
Lemma switchChannel_ret r m m' c :
  switchChannel r m = Ret (m', c) ->
  exists p, addr_index (channels m) (cursor m) = Ret p /\
            m' = set_selected m (Some p).
Proof.
  unfold switchChannel.
  destruct (addr_index (channels m) (cursor m)) as [p |]; simpl; [| discriminate].
  destruct (r (FastPLS (p_target p))); intros H; inversion H; eauto.
Qed.

Lemma activate_ret r m m' c :
  activate r m = Ret (m', c) ->
  exists s, m' = set_selected m s.
Proof.
  unfold activate. intros H.
  destruct (playerSt m).
  - apply switchChannel_ret in H. destruct H as (p & _ & ->). eauto.
  - destruct (addr_index (channels m) (cursor m)) as [p |]; simpl in H;
      [| discriminate].
    destruct (ptr_eqb (selected m) (Some p)).
    + inversion H. eauto.
    + apply switchChannel_ret in H. destruct H as (q & _ & ->). eauto.
Qed.

(** A key press changes at most the cursor and the selection. *)
Lemma Update_key_frame r m k m' c :
  Update r m (KeyMsg k) = Ret (m', c) ->
  channels m' = channels m /\ err m' = err m /\ loading m' = loading m /\
  playerSt m' = playerSt m /\ player m' = player m.
Proof.
  unfold Update.
  destruct (is_quit k).
  { destruct (player m) eqn:E; intros H; inversion H; subst; auto. }
  destruct (is_up k).
  { intros H; inversion H. destruct (0 <? cursor m); simpl; auto. }
  destruct (is_down k).
  { intros H; inversion H.
    destruct (cursor m <? len (channels m) - 1); simpl; auto. }
  destruct (is_activate k).
  { intros H. apply activate_ret in H. destruct H as (s & ->). simpl. auto. }
  intros H; inversion H; subst; auto.
Qed.

(** ** Invariants of the control loop *)

Section Invariant.
Variable ok : Msg -> bool.
Variable P : model -> Prop.
Hypothesis P_step : forall r m msg m' c,
  ok msg = true -> P m -> Update r m msg = Ret (m', c) -> P m'.

Lemma run_invariant evs : forall m m' cs,
  all_msgs ok evs -> P m -> run m evs = Ret (m', cs) -> P m'.
Proof.
  induction evs as [| [r msg] evs IH]; intros m m' cs Hd Hm Hrun.
  - simpl in Hrun. inversion Hrun; subst; assumption.
  - inversion Hd as [| ? ? Hmsg Hrest]; subst. simpl in Hmsg, Hrun.
    destruct (Update r m msg) as [[m1 c1] |] eqn:Hu; simpl in Hrun;
      [| discriminate].
    destruct (run m1 evs) as [[m2 cs2] |] eqn:Hr; simpl in Hrun;
      [| discriminate].
    inversion Hrun; subst.
    apply (IH m1 m' cs2); [exact Hrest | | exact Hr].
    exact (P_step r m msg m1 c1 Hmsg Hm Hu).
Qed.
End Invariant.

Lemma handle_iff_phase_step r m msg m' c :
  delivered msg = true -> handle_iff_phase m ->
  Update r m msg = Ret (m', c) -> handle_iff_phase m'.
Proof.
  unfold handle_iff_phase. intros Hd Hm Hu.
  destruct msg as [k | p | | e | cs | e |].
  - apply Update_key_frame in Hu. destruct Hu as (_ & _ & _ & -> & ->).
    assumption.
  - destruct p as [x |]; [| discriminate].
    inversion Hu; subst; simpl. split; [reflexivity | discriminate].
  - inversion Hu; subst; simpl. split; [congruence | discriminate].
  - inversion Hu; subst; simpl. split; [congruence | discriminate].
  - inversion Hu; subst; simpl. assumption.
  - inversion Hu; subst; simpl. assumption.
  - inversion Hu; subst. assumption.
Qed.

(** ** The player handle and the playback phase *)

(** C1: after every finite sequence of delivered events handled from the
    initial state, the player handle is present if and only if the playback
    phase is Playing; in particular the next PlaybackStarted event leaves a
    handle and the phase Playing, and the next PlaybackStopped or
    PlaybackFailed event leaves no handle and the phase Stopped. *)
Theorem handle_present_iff_playing (evs : list event) (m : model) (cs : list Cmd) :
  all_delivered evs ->
  run initialModel evs = Ret (m, cs) ->
  (player m <> None <-> playerSt m = playing) /\
  (forall r x, exists m',
      Update r m (startPlaybackMsg (Some x)) = Ret (m', None) /\
      player m' = Some x /\ playerSt m' = playing) /\
  (forall r, exists m',
      Update r m stopPlaybackMsg = Ret (m', None) /\
      player m' = None /\ playerSt m' = stopped) /\
  (forall r e, exists m',
      Update r m (playbackErrorMsg e) = Ret (m', None) /\
      player m' = None /\ playerSt m' = stopped).
Proof.
  intros Hd Hrun. split.
  - apply (run_invariant delivered handle_iff_phase handle_iff_phase_step
             evs initialModel m cs Hd); [| exact Hrun].
    unfold handle_iff_phase; simpl. split; [congruence | discriminate].
  - repeat split; intros; eexists; simpl; repeat split; reflexivity.
Qed.

Lemma handle_present_iff_playing_witness :
  all_delivered startFirst /\
  run initialModel startFirst = Ret (playingFirst, [startPlayback "http://stream.example/a"]) /\
  (player playingFirst <> None <-> playerSt playingFirst = playing).
Proof.
  assert (Hd : all_delivered startFirst) by (repeat constructor).
  assert (Hr : run initialModel startFirst
               = Ret (playingFirst, [startPlayback "http://stream.example/a"]))
    by reflexivity.
  split; [exact Hd | split; [exact Hr |]].
  exact (proj1 (handle_present_iff_playing startFirst playingFirst _ Hd Hr)).
Defined.

(** ** Switching channels *)

Lemma before_two (a b : Cmd) : before a b [a; b].
Proof. exists [], [], []. reflexivity. Qed.

(** C2: while playing channel A with a player handle, activating the
    channel B under the cursor, different from A and with a stream URL the
    resolver finds, schedules exactly the stop effect for the handle of A
    followed by the start effect for the URL of B: the stop effect comes
    strictly before the start effect, and no start effect comes before it. *)
Theorem stop_before_start (r : Resolver) (m : model) (a b : ChannelPtr)
        (x : ExecCmd) (url k : string) :
  playerSt m = playing ->
  player m = Some x ->
  selected m = Some a ->
  addr_index (channels m) (cursor m) = Ret b ->
  ptr_eqb (Some a) (Some b) = false ->
  r (FastPLS (p_target b)) = inl url ->
  is_activate k = true ->
  exists m',
    Update r m (KeyMsg k)
    = Ret (m', Some (teaSequence [stopPlayback (Some x); startPlayback url])) /\
    schedule (teaSequence [stopPlayback (Some x); startPlayback url])
    = [stopPlayback (Some x); startPlayback url] /\
    before (stopPlayback (Some x)) (startPlayback url)
           (schedule (teaSequence [stopPlayback (Some x); startPlayback url])) /\
    selected m' = Some b.
Proof.
  intros Hph Hpl Hsel Hb Hne Hurl Hk.
  exists (set_selected m (Some b)).
  rewrite (Update_activate r m k Hk).
  unfold activate, switchChannel.
  rewrite Hph, Hb; simpl. rewrite Hsel, Hne, Hurl, Hpl; simpl.
  repeat split. apply before_two.
Qed.

Lemma stop_before_start_witness :
  exists m',
    Update resolveOk (set_cursor playingFirst 1) (KeyMsg "enter")
    = Ret (m', Some (teaSequence [stopPlayback (Some mpv);
                                  startPlayback "http://stream.example/a"])) /\
    selected m' = Some (mkPtr 1 1 dronezone).
Proof.
  destruct (stop_before_start resolveOk (set_cursor playingFirst 1)
              (mkPtr 1 0 grooveSalad) (mkPtr 1 1 dronezone) mpv
              "http://stream.example/a" "enter"
              eq_refl eq_refl eq_refl eq_refl eq_refl eq_refl eq_refl)
    as (m' & Hu & _ & _ & Hs).
  exists m'. split; [exact Hu | exact Hs].
Defined.

(** A switch whose resolution fails returns the error closure alone: the
    stop command collected in [cmds] is not part of what is returned. *)
Lemma switch_resolution_failure (r : Resolver) (m : model) (b : ChannelPtr)
      (e : Error) (k : string) :
  addr_index (channels m) (cursor m) = Ret b ->
  ptr_eqb (selected m) (Some b) = false ->
  r (FastPLS (p_target b)) = inr e ->
  is_activate k = true ->
  Update r m (KeyMsg k) = Ret (set_selected m (Some b), Some (emitErr e)).
Proof.
  intros Hb Hne He Hk.
  rewrite (Update_activate r m k Hk).
  unfold activate, switchChannel.
  destruct (playerSt m); rewrite Hb; simpl; try rewrite Hne; rewrite He;
    reflexivity.
Qed.

(** C3: playing the first channel, KeyDown and then KeyActivate on the
    second channel, whose resolution fails, schedule the error report and
    nothing else: no stop effect for the handle of the first channel.  After
    the one completion there is, the resolution failure is the last error,
    and the phase is still Playing with the old handle in place. *)
Theorem failed_switch_schedules_no_stop :
  exists m2 m3,
    run playingFirst [(resolveFail, KeyMsg "down"); (resolveFail, KeyMsg "enter")]
    = Ret (m2, [emitErr resolutionError]) /\
    existsb is_stop [emitErr resolutionError] = false /\
    existsb is_start [emitErr resolutionError] = false /\
    selected m2 = Some (mkPtr 1 1 dronezone) /\
    Update resolveFail m2 (run_emitErr resolutionError) = Ret (m3, None) /\
    err m3 = Some resolutionError /\
    playerSt m3 = playing /\
    player m3 = Some mpv.
Proof.
  eexists. eexists.
  split; [reflexivity |].
  repeat split.
Qed.

(** ** The selection *)

(** C4, as stated, fails: after the catalog has arrived and a channel has
    been activated the selection is present while the phase is Stopped, and
    PlaybackStopped does not clear a selection. *)
Lemma selection_present_while_stopped :
  ~ (forall evs m cs,
        all_delivered evs -> run initialModel evs = Ret (m, cs) ->
        selected m <> None -> playerSt m = playing) /\
  ~ (forall r m m' c,
        Update r m stopPlaybackMsg = Ret (m', c) -> selected m' = None) /\
  ~ (forall r m e m' c,
        Update r m (playbackErrorMsg (Some e)) = Ret (m', c) -> selected m' = None).
Proof.
  split; [| split].
  - intros H.
    assert (Hd : all_delivered [(resolveOk, channelsMsg catalog);
                                (resolveOk, KeyMsg "enter")])
      by (repeat constructor).
    specialize (H _ _ _ Hd eq_refl). simpl in H.
    assert (stopped = playing) by (apply H; discriminate).
    discriminate.
  - intros H.
    specialize (H resolveOk playingFirst _ _ eq_refl). discriminate.
  - intros H.
    specialize (H resolveOk playingFirst "exit status 1" _ _ eq_refl).
    discriminate.
Qed.

(** C4, amended: PlaybackStopped and PlaybackFailed set the phase to
    Stopped and clear the handle, and leave the selection as it was; the
    banner that names the selection is empty whenever the phase is Stopped. *)
Theorem completion_keeps_selection (r : Resolver) (m : model) :
  (exists m',
      Update r m stopPlaybackMsg = Ret (m', None) /\
      playerSt m' = stopped /\ player m' = None /\
      selected m' = selected m) /\
  (forall e, exists m',
      Update r m (playbackErrorMsg e) = Ret (m', None) /\
      playerSt m' = stopped /\ player m' = None /\
      selected m' = selected m) /\
  (forall t, banner t (set_playerSt m stopped) = "").
Proof.
  split; [| split].
  - eexists. simpl. repeat split.
  - intros e. eexists. simpl. repeat split.
  - intros t. reflexivity.
Qed.

(** C5: while playing, activating the channel that is the selection (the
    cell under the cursor is the selected cell) clears the selection and
    schedules the stop effect for the current handle and nothing else, no
    start effect; the channels, the cursor and every other field stay.
    Whatever the completion of that stop effect, handling it leaves the
    phase Stopped with no handle and no selection. *)
Theorem toggle_off (r : Resolver) (m : model) (b : ChannelPtr) (k : string) :
  playerSt m = playing ->
  addr_index (channels m) (cursor m) = Ret b ->
  ptr_eqb (selected m) (Some b) = true ->
  is_activate k = true ->
  Update r m (KeyMsg k) = Ret (set_selected m None, Some (stopPlayback (player m))) /\
  selected (set_selected m None) = None /\
  scheduled (Some (stopPlayback (player m))) = [stopPlayback (player m)] /\
  existsb is_start (scheduled (Some (stopPlayback (player m)))) = false /\
  channels (set_selected m None) = channels m /\
  cursor (set_selected m None) = cursor m /\
  (forall killed, exists m'',
      Update r (set_selected m None) (run_stopPlayback (player m) killed)
      = Ret (m'', None) /\
      playerSt m'' = stopped /\ player m'' = None /\ selected m'' = None).
Proof.
  intros Hph Hb Heq Hk.
  rewrite (Update_activate r m k Hk).
  unfold activate. rewrite Hph, Hb; simpl. rewrite Heq.
  repeat split.
  intros killed. unfold run_stopPlayback.
  destruct (player m) as [x |];
    [destruct (x_has_process x); [destruct killed |] |];
    eexists; simpl; repeat split.
Qed.

Lemma toggle_off_witness :
  Update resolveOk playingFirst (KeyMsg " ")
  = Ret (set_selected playingFirst None, Some (stopPlayback (Some mpv))).
Proof.
  exact (proj1 (toggle_off resolveOk playingFirst (mkPtr 1 0 grooveSalad) " "
                  eq_refl eq_refl eq_refl eq_refl)).
Defined.

(** ** Activation on an empty catalog *)

Lemma addr_index_empty (s : slice) (i : Z) :
  s_elems s = [] -> addr_index s i = Panic.
Proof.
  intros H. unfold addr_index, len. rewrite H. simpl.
  destruct (i <? 0) eqn:Hneg; simpl; [reflexivity |].
  apply Z.ltb_ge in Hneg. apply Z.leb_le in Hneg. rewrite Hneg. reflexivity.
Qed.

Lemma activate_empty_panics (r : Resolver) (m : model) (k : string) :
  s_elems (channels m) = [] -> is_activate k = true ->
  Update r m (KeyMsg k) = Panic.
Proof.
  intros He Hk. rewrite (Update_activate r m k Hk).
  unfold activate, switchChannel.
  rewrite (addr_index_empty _ _ He).
  destruct (playerSt m); reflexivity.
Qed.

(** C9: with no channels, both while loading and after a failed catalog
    fetch, KeyActivate addresses the cell under the cursor of an empty
    sequence and the call panics: no state and no command is returned. *)
Theorem activate_on_empty_catalog_panics (r : Resolver) :
  Update r initialModel (KeyMsg "enter") = Panic /\
  Update r initialModel (KeyMsg " ") = Panic /\
  run initialModel [(r, run_fetchChannels (inl "network unreachable"));
                    (r, KeyMsg "enter")] = Panic.
Proof.
  split; [| split].
  - apply activate_empty_panics; reflexivity.
  - apply activate_empty_panics; reflexivity.
  - reflexivity.
Qed.

(** ** Moving the cursor *)

Lemma nav_step (m0 : model) r m msg m' c :
  nav_msg msg = true -> nav_inv m0 m ->
  Update r m msg = Ret (m', c) -> nav_inv m0 m'.
Proof.
  unfold nav_inv, in_bounds.
  intros Hk (Hb & Hc & Hz) Hu.
  destruct msg as [k | | | | | |]; try discriminate. simpl in Hk.
  unfold is_nav in Hk. destruct (is_up k) eqn:Hup.
  - rewrite (Update_up r m k Hup) in Hu. inversion Hu; subst; clear Hu.
    destruct (0 <? cursor m) eqn:Hlt.
    + apply Z.ltb_lt in Hlt. simpl. repeat split; try lia; try assumption.
      intros H0. rewrite Hc, H0 in Hb. simpl in Hb. lia.
    + auto.
  - simpl in Hk. rewrite (Update_down r m k Hk) in Hu.
    inversion Hu; subst; clear Hu.
    destruct (cursor m <? len (channels m) - 1) eqn:Hlt.
    + apply Z.ltb_lt in Hlt. simpl. repeat split; try lia; try assumption.
      intros H0. rewrite Hc, H0 in Hlt. lia.
    + auto.
Qed.

Lemma nav_total r m msg :
  nav_msg msg = true -> exists m', Update r m msg = Ret (m', None).
Proof.
  intros Hk.
  destruct msg as [k | | | | | |]; try discriminate. simpl in Hk.
  unfold is_nav in Hk. destruct (is_up k) eqn:Hup.
  - rewrite (Update_up r m k Hup). eauto.
  - simpl in Hk. rewrite (Update_down r m k Hk). eauto.
Qed.

(** A run of cursor movements never panics and schedules nothing. *)
Lemma nav_run_total evs : forall m,
  all_msgs nav_msg evs -> exists m', run m evs = Ret (m', []).
Proof.
  induction evs as [| [r msg] evs IH]; intros m Hall.
  - exists m. reflexivity.
  - inversion Hall as [| ? ? Hmsg Hrest]; subst. simpl in Hmsg.
    destruct (nav_total r m msg Hmsg) as (m1 & Hu).
    destruct (IH m1 Hrest) as (m2 & Hr).
    exists m2. simpl. rewrite Hu. simpl. rewrite Hr. reflexivity.
Qed.

(** C6: from a state whose cursor is in [0, max(N-1, 0)], every finite
    sequence of KeyUp and KeyDown events is handled without a panic, leaves
    the cursor in [0, max(N-1, 0)] and the channels as they were, and
    schedules no effect; when N = 0 the state is unchanged. *)
Theorem cursor_stays_in_bounds (m : model) (evs : list event) :
  all_msgs nav_msg evs ->
  in_bounds m ->
  exists m',
    run m evs = Ret (m', []) /\
    0 <= cursor m' <= Z.max (len (channels m) - 1) 0 /\
    channels m' = channels m /\
    (len (channels m) = 0 -> m' = m).
Proof.
  intros Hall Hb.
  destruct (nav_run_total evs m Hall) as (m' & Hr).
  exists m'. split; [exact Hr |].
  assert (H : nav_inv m m').
  { apply (run_invariant nav_msg (nav_inv m) (nav_step m) evs m m' [] Hall);
      [| exact Hr].
    unfold nav_inv. auto. }
  destruct H as (Hb' & Hc & Hz). unfold in_bounds in Hb'.
  rewrite Hc in Hb'. auto.
Qed.

Lemma cursor_stays_in_bounds_witness :
  exists m',
    run playingFirst upAndDown = Ret (m', []) /\
    0 <= cursor m' <= Z.max (len (channels playingFirst) - 1) 0 /\
    channels m' = channels playingFirst /\
    (len (channels playingFirst) = 0 -> m' = playingFirst).
Proof.
  apply (cursor_stays_in_bounds playingFirst upAndDown).
  - repeat constructor.
  - unfold in_bounds. simpl. lia.
Defined.

(** ** The rendered frame *)

Example shows_channels_playing :
  shows_channels plainTerminal playingFirst = true.
Proof. reflexivity. Qed.

(** C7, as stated, fails twice: while loading the frame is the loading
    line and does not show the last error; and when the error is shown it
    is the whole frame, without any channel of the list. *)
Lemma error_frame_excludes_list :
  ~ (forall t m, err m <> None -> shows_error t m = true) /\
  ~ (forall t m, err m <> None -> loading m = false ->
                 shows_error t m = true /\ shows_channels t m = true) /\
  View plainTerminal (set_err initialModel (Some playbackError))
  = ("Loading channels..." ++ newline)%string /\
  View plainTerminal (set_err playingFirst (Some playbackError))
  = ("Error: " ++ playbackError ++ newline)%string.
Proof.
  split; [| split; [| split; reflexivity]].
  - intros H.
    specialize (H plainTerminal (set_err initialModel (Some playbackError))).
    assert (Hf : false = true) by (apply H; discriminate).
    discriminate.
  - intros H.
    destruct (H plainTerminal (set_err playingFirst (Some playbackError)))
      as (_ & Hc); [discriminate | reflexivity |].
    discriminate.
Qed.

(** C7, amended: when the last error is present and the loading flag is
    false the frame is exactly the styled error line, whatever the playback
    phase, the channels, the cursor and the selection; while the loading
    flag is true the frame is the loading line alone. *)
Theorem view_with_error (t : Terminal) (m : model) (e : Error) :
  err m = Some e ->
  View t m = if loading m
             then ("Loading channels..." ++ newline)%string
             else errorStyle t ("Error: " ++ e ++ newline)%string.
Proof.
  intros He. unfold View. rewrite He. reflexivity.
Qed.

Lemma view_with_error_witness :
  View plainTerminal (set_err playingFirst (Some playbackError))
  = ("Error: " ++ playbackError ++ newline)%string.
Proof.
  exact (view_with_error plainTerminal
           (set_err playingFirst (Some playbackError)) playbackError eq_refl).
Defined.

(** ** The last error *)

(** C8, as stated, fails: the catalog that arrives after a failed fetch
    leaves the error of the fetch in place, and a playback that starts
    after a failed one leaves the playback error in place. *)
Lemma success_keeps_last_error :
  (exists m,
      run initialModel [(resolveOk, run_fetchChannels (inl catalogError));
                        (resolveOk, run_fetchChannels (inr catalog))]
      = Ret (m, []) /\
      err m = Some catalogError) /\
  (exists m,
      run playingFirst [(resolveOk, run_startPlayback (inl playbackError));
                        (resolveOk, run_startPlayback (inr 8%nat))]
      = Ret (m, []) /\
      err m = Some playbackError).
Proof.
  split; eexists; split; reflexivity.
Qed.

Lemma err_present_step r m msg m' c :
  delivered msg = true -> err m <> None ->
  Update r m msg = Ret (m', c) -> err m' <> None.
Proof.
  intros Hd He Hu.
  destruct msg as [k | p | | e | cs | e |].
  - apply Update_key_frame in Hu. destruct Hu as (_ & -> & _). assumption.
  - inversion Hu; subst; assumption.
  - inversion Hu; subst; assumption.
  - destruct e; [| discriminate]. inversion Hu; subst; simpl. discriminate.
  - inversion Hu; subst; assumption.
  - destruct e; [| discriminate]. inversion Hu; subst; simpl. discriminate.
  - inversion Hu; subst; assumption.
Qed.

Lemma err_unchanged_step (e0 : option Error) r m msg m' c :
  negb (is_failure msg) = true -> err m = e0 ->
  Update r m msg = Ret (m', c) -> err m' = e0.
Proof.
  intros Hd He Hu.
  destruct msg as [k | p | | e | cs | e |]; try discriminate.
  - apply Update_key_frame in Hu. destruct Hu as (_ & -> & _). assumption.
  - inversion Hu; subst; reflexivity.
  - inversion Hu; subst; reflexivity.
  - inversion Hu; subst; reflexivity.
  - inversion Hu; subst; reflexivity.
Qed.

(** C8, amended: no event clears the last error.  Once present it is
    present after every further sequence of delivered events, successful
    completions of any kind included; it is the same error as long as no
    later failure event (CatalogFailed, a resolution failure, or
    PlaybackFailed) arrives, and such an event replaces it by its own. *)
Theorem last_error_retained (m m' : model) (evs : list event) (cs : list Cmd) :
  all_delivered evs ->
  err m <> None ->
  run m evs = Ret (m', cs) ->
  err m' <> None /\
  (all_msgs (fun msg => negb (is_failure msg)) evs -> err m' = err m) /\
  (forall r e, exists m'',
      Update r m' (errMsg (Some e)) = Ret (m'', None) /\ err m'' = Some e) /\
  (forall r e, exists m'',
      Update r m' (playbackErrorMsg (Some e)) = Ret (m'', None) /\
      err m'' = Some e).
Proof.
  intros Hd He Hr. split; [| split; [| split]].
  - exact (run_invariant delivered (fun s => err s <> None) err_present_step
             evs m m' cs Hd He Hr).
  - intros Hn.
    exact (run_invariant (fun msg => negb (is_failure msg))
             (fun s => err s = err m) (err_unchanged_step (err m))
             evs m m' cs Hn eq_refl Hr).
  - intros r e. eexists. split; reflexivity.
  - intros r e. eexists. split; reflexivity.
Qed.

Lemma last_error_retained_witness :
  exists m',
    run (set_err initialModel (Some catalogError)) failThenRecover = Ret (m', []) /\
    err m' <> None /\ err m' = Some catalogError.
Proof.
  eexists. split; [reflexivity |].
  assert (Hd : all_delivered failThenRecover) by (repeat constructor).
  assert (Hn : all_msgs (fun msg => negb (is_failure msg)) failThenRecover)
    by (repeat constructor).
  assert (He : err (set_err initialModel (Some catalogError)) <> None)
    by discriminate.
  destruct (last_error_retained (set_err initialModel (Some catalogError)) _
              failThenRecover [] Hd He eq_refl)
    as (Hp & Hs & _).
  split; [exact Hp | exact (Hs Hn)].
Defined.

(** ** What the playback completions leave alone *)

(** C10: handling PlaybackStarted, PlaybackStopped or PlaybackFailed
    returns a state with the channels, the cursor and the loading flag of
    the state before, and no command; the fields that can differ are the
    phase, the handle, the selection and the last error. *)
Theorem lifecycle_frame (r : Resolver) (m : model) :
  (forall p, exists m',
      Update r m (startPlaybackMsg p) = Ret (m', None) /\
      channels m' = channels m /\ cursor m' = cursor m /\
      loading m' = loading m) /\
  (exists m',
      Update r m stopPlaybackMsg = Ret (m', None) /\
      channels m' = channels m /\ cursor m' = cursor m /\
      loading m' = loading m) /\
  (forall e, exists m',
      Update r m (playbackErrorMsg e) = Ret (m', None) /\
      channels m' = channels m /\ cursor m' = cursor m /\
      loading m' = loading m).
Proof.
  split; [| split]; intros; eexists; simpl; repeat split.
Qed.

(** ** Strings *)

Lemma length_append (a b : string) :
  String.length (a ++ b)%string = (String.length a + String.length b)%nat.
Proof. induction a as [| c a IH]; simpl; [reflexivity | rewrite IH; reflexivity]. Qed.

Lemma append_nil_r (a : string) : (a ++ "")%string = a.
Proof. induction a as [| c a IH]; simpl; [reflexivity | rewrite IH; reflexivity]. Qed.

Lemma append_assoc (a b c : string) :
  ((a ++ b) ++ c)%string = (a ++ (b ++ c))%string.
Proof. induction a as [| x a IH]; simpl; [reflexivity | rewrite IH; reflexivity]. Qed.

Lemma prefix_split (p s : string) :
  prefix p s = true -> s = (p ++ skip (String.length p) s)%string.
Proof.
  revert s. induction p as [| a p IH]; intros s H; simpl.
  - reflexivity.
  - destruct s as [| b s]; simpl in H; [discriminate |].
    destruct (ascii_dec a b) as [-> |]; [| discriminate].
    f_equal. apply IH. exact H.
Qed.

Lemma prefix_append (p r : string) : prefix p (p ++ r) = true.
Proof.
  induction p as [| a p IH]; simpl.
  - destruct r; reflexivity.
  - destruct (ascii_dec a a); [exact IH | congruence].
Qed.

Lemma skip_append (p r : string) : skip (String.length p) (p ++ r) = r.
Proof. induction p as [| a p IH]; simpl; [reflexivity | exact IH]. Qed.

(** A string is its first line, then nothing or a line feed and the rest. *)
Lemma upto_newline_split (s : string) :
  exists rest,
    s = (upto_newline s ++ rest)%string /\
    (rest = "" \/ exists r, rest = String lf r).
Proof.
  induction s as [| c s (rest & Hs & Hr)]; simpl.
  - exists "". auto.
  - destruct (Ascii.eqb c lf) eqn:Hc.
    + apply Ascii.eqb_eq in Hc. subst c. exists (String lf s). simpl. eauto.
    + exists rest. simpl. rewrite <- Hs. auto.
Qed.

Lemma upto_newline_idem (s : string) :
  upto_newline (upto_newline s) = upto_newline s.
Proof.
  induction s as [| c s IH]; simpl; [reflexivity |].
  destruct (Ascii.eqb c lf) eqn:Hc; simpl; [reflexivity |].
  rewrite Hc, IH. reflexivity.
Qed.

Lemma indexNewline_upto (s : string) : indexNewline (upto_newline s) = -1.
Proof.
  induction s as [| c s IH]; simpl; [reflexivity |].
  destruct (Ascii.eqb c lf) eqn:Hc; simpl; [reflexivity |].
  rewrite Hc, IH. reflexivity.
Qed.

Lemma indexNewline_range (s : string) :
  indexNewline s = -1 \/ 0 <= indexNewline s < Z.of_nat (String.length s).
Proof.
  induction s as [| c s IH]; simpl; [auto |].
  destruct (Ascii.eqb c lf); [right; lia |].
  destruct IH as [-> | IH]; [auto |].
  destruct (indexNewline s =? -1) eqn:E; [auto | right; lia].
Qed.

Lemma upto_newline_none (s : string) :
  indexNewline s = -1 -> upto_newline s = s.
Proof.
  induction s as [| c s IH]; simpl; [reflexivity |].
  destruct (Ascii.eqb c lf); [discriminate |].
  destruct (indexNewline s =? -1) eqn:E.
  - apply Z.eqb_eq in E. intros _. rewrite (IH E). reflexivity.
  - destruct (indexNewline_range s) as [H | H]; [rewrite H in E; discriminate |].
    lia.
Qed.

Lemma substring_upto (s : string) :
  indexNewline s <> -1 ->
  substring 0 (Z.to_nat (indexNewline s)) s = upto_newline s.
Proof.
  induction s as [| c s IH]; simpl; [congruence |].
  destruct (Ascii.eqb c lf); [reflexivity |].
  destruct (indexNewline s =? -1) eqn:E; [congruence |].
  apply Z.eqb_neq in E. intros _.
  destruct (indexNewline_range s) as [H | H]; [congruence |].
  replace (Z.to_nat (indexNewline s + 1)) with (S (Z.to_nat (indexNewline s)))
    by lia.
  simpl. rewrite (IH E). reflexivity.
Qed.

Lemma cutFastPLS_upto (s : string) : cutFastPLS s = upto_newline s.
Proof.
  unfold cutFastPLS.
  destruct (s =? "")%string eqn:E.
  - apply String.eqb_eq in E. subst. reflexivity.
  - destruct (indexNewline s =? -1) eqn:E1.
    + apply Z.eqb_eq in E1. symmetry. apply upto_newline_none. exact E1.
    + apply Z.eqb_neq in E1. apply substring_upto. exact E1.
Qed.

(** ** The stream resolver: [getStreamURL] *)

Lemma upto_newline_head (c : ascii) (g : string) :
  upto_newline (String c g) = String c g -> c <> lf.
Proof.
  simpl. destruct (Ascii.eqb c lf) eqn:Hc; [discriminate |].
  intros _. apply Ascii.eqb_neq. exact Hc.
Qed.

Lemma matchHere_shape (line g : string) :
  matchHere line = Some g ->
  g <> "" /\ upto_newline g = g /\
  exists post,
    line = ("File1=" ++ g ++ post)%string /\
    (post = "" \/ exists r, post = String lf r).
Proof.
  unfold matchHere. destruct (prefix "File1=" line) eqn:Hp; [| discriminate].
  apply prefix_split in Hp. change (String.length "File1=") with 6%nat in Hp.
  destruct (upto_newline_split (skip 6 line)) as (post & Hs & Hpost).
  remember (upto_newline (skip 6 line)) as u eqn:Hu.
  destruct u as [| c u]; [discriminate |].
  intros H; inversion H; subst g; clear H.
  split; [discriminate |]. split.
  - rewrite Hu. apply upto_newline_idem.
  - exists post. split; [| exact Hpost].
    rewrite Hp at 1. rewrite Hs. reflexivity.
Qed.

Lemma re_shape (line g : string) :
  re_FindStringSubmatch line = Some g ->
  g <> "" /\ upto_newline g = g /\
  exists pre post,
    line = (pre ++ "File1=" ++ g ++ post)%string /\
    (post = "" \/ exists r, post = String lf r).
Proof.
  induction line as [| a line IH]; simpl.
  - discriminate.
  - destruct (matchHere (String a line)) as [g' |] eqn:Hm.
    + intros H; inversion H; subst g'; clear H.
      destruct (matchHere_shape _ _ Hm) as (Hg & Hu & post & Hl & Hpost).
      split; [exact Hg |]. split; [exact Hu |].
      exists "", post. split; [exact Hl | exact Hpost].
    + intros H. destruct (IH H) as (Hg & Hu & pre & post & Hl & Hpost).
      split; [exact Hg |]. split; [exact Hu |].
      exists (String a pre), post. split; [| exact Hpost].
      simpl. rewrite Hl. reflexivity.
Qed.

Lemma re_unfold (line : string) :
  re_FindStringSubmatch line =
  match matchHere line with
  | Some g => Some g
  | None =>
      match line with
      | EmptyString => None
      | String _ rest => re_FindStringSubmatch rest
      end
  end.
Proof. destruct line; reflexivity. Qed.

Lemma re_complete (pre rest : string) (c : ascii) :
  c <> lf ->
  re_FindStringSubmatch (pre ++ "File1=" ++ String c rest)%string <> None.
Proof.
  intros Hc. apply Ascii.eqb_neq in Hc.
  assert (Hhere : matchHere ("File1=" ++ String c rest)%string <> None).
  { unfold matchHere. rewrite prefix_append.
    change 6%nat with (String.length "File1=").
    rewrite skip_append. simpl. rewrite Hc. discriminate. }
  induction pre as [| a pre IH].
  - change ("" ++ "File1=" ++ String c rest)%string
      with ("File1=" ++ String c rest)%string.
    rewrite re_unfold.
    destruct (matchHere ("File1=" ++ String c rest)%string);
      [discriminate | congruence].
  - rewrite re_unfold.
    destruct (matchHere (String a pre ++ "File1=" ++ String c rest)%string);
      [discriminate | exact IH].
Qed.

Lemma re_none_iff (line : string) :
  re_FindStringSubmatch line = None <-> no_file1 line.
Proof.
  split.
  - intros Hn pre c rest Hc Hl. subst line.
    exact (re_complete pre rest c Hc Hn).
  - intros Hno.
    destruct (re_FindStringSubmatch line) as [g |] eqn:Hre; [| reflexivity].
    destruct (re_shape _ _ Hre) as (Hg & Hu & pre & post & Hl & _).
    destruct g as [| c g]; [congruence |].
    exfalso. apply (Hno pre c (g ++ post)%string (upto_newline_head c g Hu)).
    exact Hl.
Qed.

Lemma scanLines_ok (lines : list string) (url : string) :
  scanLines lines = inl url ->
  exists line, In line lines /\ re_FindStringSubmatch line = Some url.
Proof.
  induction lines as [| l lines IH]; simpl; [discriminate |].
  destruct (re_FindStringSubmatch l) as [g |] eqn:Hre.
  - intros H; inversion H; subst. exists l. auto.
  - intros H. destruct (IH H) as (line & Hin & Hl). exists line. auto.
Qed.

Lemma scanLines_error (lines : list string) (e : Error) :
  scanLines lines = inr e <->
  e = noStreamURL /\ Forall no_file1 lines.
Proof.
  induction lines as [| l lines IH]; simpl.
  - split.
    + intros H; inversion H. auto.
    + intros (-> & _). reflexivity.
  - destruct (re_FindStringSubmatch l) as [g |] eqn:Hre.
    + split; [discriminate |].
      intros (_ & Hall). inversion Hall as [| ? ? Hl _]; subst.
      apply re_none_iff in Hl. congruence.
    + rewrite IH. split.
      * intros (He & Hall). split; [exact He |].
        constructor; [apply re_none_iff; exact Hre | exact Hall].
      * intros (He & Hall). inversion Hall; subst. auto.
Qed.

(** X1: a stream URL returned by getStreamURL is never empty and holds
    no line feed; it is what follows an occurrence of File1= in one of the
    scanned lines of the answer, up to the end of the line. *)
Theorem getStreamURL_ok_shape (httpGet : string -> Error + list string)
        (plsURL url : string) :
  getStreamURL httpGet plsURL = inl url ->
  url <> "" /\ indexNewline url = -1 /\
  exists lines line pre post,
    httpGet plsURL = inr lines /\ In line lines /\
    line = (pre ++ "File1=" ++ url ++ post)%string /\
    (post = "" \/ exists r, post = String lf r).
Proof.
  unfold getStreamURL.
  destruct (httpGet plsURL) as [e | lines]; [discriminate |].
  intros H. destruct (scanLines_ok lines url H) as (line & Hin & Hre).
  destruct (re_shape _ _ Hre) as (Hg & Hu & pre & post & Hl & Hpost).
  split; [exact Hg |]. split.
  - rewrite <- Hu. apply indexNewline_upto.
  - exists lines, line, pre, post. auto.
Qed.

Lemma getStreamURL_ok_shape_witness :
  getStreamURL sampleWeb "https://api.somafm.com/groovesalad.pls"
  = inl "https://ice5.somafm.com/groovesalad-128-mp3" /\
  "https://ice5.somafm.com/groovesalad-128-mp3" <> "" /\
  indexNewline "https://ice5.somafm.com/groovesalad-128-mp3" = -1.
Proof.
  assert (H : getStreamURL sampleWeb "https://api.somafm.com/groovesalad.pls"
              = inl "https://ice5.somafm.com/groovesalad-128-mp3")
    by reflexivity.
  destruct (getStreamURL_ok_shape sampleWeb _ _ H) as (Hne & Hnl & _).
  split; [exact H | split; [exact Hne | exact Hnl]].
Defined.

(** X2: getStreamURL fails exactly when the request fails, with the error
    of the request, or when no scanned line has File1= followed by a
    character other than a line feed, with the error "no stream URL found
    in PLS file". *)
Theorem getStreamURL_error_iff (httpGet : string -> Error + list string)
        (plsURL : string) (e : Error) :
  getStreamURL httpGet plsURL = inr e <->
  httpGet plsURL = inl e \/
  exists lines,
    httpGet plsURL = inr lines /\ e = noStreamURL /\ Forall no_file1 lines.
Proof.
  unfold getStreamURL.
  destruct (httpGet plsURL) as [e' | lines].
  - split.
    + intros H; inversion H. auto.
    + intros [H | (lines & H & _)]; inversion H; reflexivity.
  - rewrite scanLines_error. split.
    + intros (He & Hall). right. exists lines. auto.
    + intros [H | (lines' & H & He & Hall)]; inversion H; subst. auto.
Qed.

Lemma getStreamURL_error_iff_witness :
  getStreamURL sampleWeb "https://api.somafm.com/lush.pls"
  = inr "Get: dial tcp: lookup failed".
Proof.
  apply (proj2 (getStreamURL_error_iff sampleWeb
                  "https://api.somafm.com/lush.pls"
                  "Get: dial tcp: lookup failed")).
  left. reflexivity.
Defined.

(** X3: the first matching line decides.  Lines after a match are not
    looked at, and lines without a match in front change nothing. *)
Theorem scanLines_first_match (before_ after : list string) :
  scanLines (before_ ++ after) =
  match scanLines before_ with
  | inl url => inl url
  | inr _ => scanLines after
  end.
Proof.
  induction before_ as [| l before_ IH]; simpl.
  - reflexivity.
  - destruct (re_FindStringSubmatch l); [reflexivity | exact IH].
Qed.

(** ** The catalog fetcher: [fetchChannels] *)

(** X4: the playlist pointer is cut at its first line feed: what is kept
    is a beginning of the original, without a line feed, followed in the
    original by nothing or by a line feed; cutting twice is cutting once. *)
Theorem cutFastPLS_first_line (fastPLS : string) :
  indexNewline (cutFastPLS fastPLS) = -1 /\
  cutFastPLS (cutFastPLS fastPLS) = cutFastPLS fastPLS /\
  exists rest,
    fastPLS = (cutFastPLS fastPLS ++ rest)%string /\
    (rest = "" \/ exists r, rest = String lf r).
Proof.
  rewrite !cutFastPLS_upto. split; [apply indexNewline_upto |].
  split; [apply upto_newline_idem | apply upto_newline_split].
Qed.

Lemma nth_error_normalize (trimSpace : string -> string) (cs : list Channel)
      (i : nat) :
  nth_error (map (normalizeChannel trimSpace) cs) i
  = option_map (normalizeChannel trimSpace) (nth_error cs i).
Proof.
  revert i. induction cs as [| c cs IH]; intros [| i]; simpl; auto.
Qed.

(** X5: a successful fetch delivers as many channels as were decoded, in
    the same order and in the same array; each keeps its id, title, genre,
    image, DJ and listener count, has its description trimmed and its
    playlist pointer cut to a first line without line feed.  A failed
    request or a failed decoding delivers the error. *)
Theorem fetchChannels_normalizes (trimSpace : string -> string) :
  (forall e, fetchChannels_msg trimSpace (inl e) = errMsg (Some e)) /\
  (forall e, fetchChannels_msg trimSpace (inr (inl e)) = errMsg (Some e)) /\
  (forall cs, exists cs',
      fetchChannels_msg trimSpace (inr (inr cs)) = channelsMsg cs' /\
      s_array cs' = s_array cs /\ len cs' = len cs /\
      forall i, match nth_error (s_elems cs) i, nth_error (s_elems cs') i with
                | Some c, Some c' =>
                    ID c' = ID c /\ Title c' = Title c /\ Genre c' = Genre c /\
                    Image c' = Image c /\ DJ c' = DJ c /\
                    Listeners c' = Listeners c /\
                    Description c' = trimSpace (Description c) /\
                    indexNewline (FastPLS c') = -1 /\
                    prefix (FastPLS c') (FastPLS c) = true
                | None, None => True
                | _, _ => False
                end).
Proof.
  split; [reflexivity | split; [reflexivity |]].
  intros cs. eexists. split; [reflexivity |]. simpl.
  split; [reflexivity |]. split.
  - unfold len. simpl. rewrite length_map. reflexivity.
  - intros i. rewrite nth_error_normalize.
    destruct (nth_error (s_elems cs) i) as [c |]; simpl; [| exact I].
    repeat split.
    + rewrite cutFastPLS_upto. apply indexNewline_upto.
    + rewrite cutFastPLS_upto.
      destruct (upto_newline_split (FastPLS c)) as (rest & Hs & _).
      rewrite Hs at 2. apply prefix_append.
Qed.

(** ** Panics of [Update] *)

Lemma addr_index_panic_iff (s : slice) (i : Z) :
  addr_index s i = Panic <-> i < 0 \/ len s <= i.
Proof.
  unfold addr_index, len.
  destruct (i <? 0) eqn:Hneg; simpl.
  - apply Z.ltb_lt in Hneg. split; auto.
  - apply Z.ltb_ge in Hneg.
    destruct (Z.of_nat (length (s_elems s)) <=? i) eqn:Hhi.
    + apply Z.leb_le in Hhi. split; auto.
    + apply Z.leb_gt in Hhi.
      destruct (nth_error (s_elems s) (Z.to_nat i)) as [c |] eqn:Hn.
      * split; [discriminate | lia].
      * apply nth_error_None in Hn. lia.
Qed.

Lemma activate_panic_iff (r : Resolver) (m : model) :
  activate r m = Panic <-> addr_index (channels m) (cursor m) = Panic.
Proof.
  unfold activate, switchChannel.
  destruct (playerSt m);
    destruct (addr_index (channels m) (cursor m)) as [p |]; simpl;
    try destruct (ptr_eqb (selected m) (Some p));
    try destruct (r (FastPLS (p_target p)));
    split; congruence.
Qed.

Lemma Update_panic_inv (r : Resolver) (m : model) (msg : Msg) :
  Update r m msg = Panic ->
  (exists k, msg = KeyMsg k /\ is_activate k = true) /\
  addr_index (channels m) (cursor m) = Panic.
Proof.
  destruct msg as [k | p | | e | cs | e |]; try discriminate.
  unfold Update.
  destruct (is_quit k); [destruct (player m); discriminate |].
  destruct (is_up k); [discriminate |].
  destruct (is_down k); [discriminate |].
  destruct (is_activate k) eqn:Hk; [| discriminate].
  intros H. split; [eauto |].
  apply (activate_panic_iff r). exact H.
Qed.

(** X6: the only panic of Update: a KeyActivate (enter or space) while
    the cursor is not the index of a channel, which includes every empty
    catalog.  Every other message is handled in every state. *)
Theorem Update_panics_iff (r : Resolver) (m : model) (msg : Msg) :
  Update r m msg = Panic <->
  (exists k, msg = KeyMsg k /\ is_activate k = true) /\
  (cursor m < 0 \/ len (channels m) <= cursor m).
Proof.
  split.
  - intros H. apply Update_panic_inv in H. destruct H as (Hk & Ha).
    split; [exact Hk |]. apply addr_index_panic_iff. exact Ha.
  - intros ((k & -> & Hk) & Hc).
    rewrite (Update_activate r m k Hk).
    apply activate_panic_iff. apply addr_index_panic_iff. exact Hc.
Qed.

Lemma Update_panics_iff_witness :
  Update resolveOk (set_cursor playingFirst 3) (KeyMsg "enter") = Panic.
Proof.
  apply (proj2 (Update_panics_iff resolveOk (set_cursor playingFirst 3)
                  (KeyMsg "enter"))).
  split.
  - exists "enter". split; reflexivity.
  - right. unfold len. simpl. lia.
Defined.

Lemma ready_step (r : Resolver) (m : model) (msg : Msg) :
  keeps_catalog msg = true -> ready m ->
  exists m' c,
    Update r m msg = Ret (m', c) /\ ready m' /\ channels m' = channels m.
Proof.
  unfold ready. intros Hk Hr.
  destruct (Update r m msg) as [[m' c] |] eqn:Hu.
  - exists m', c. split; [reflexivity |].
    destruct msg as [k | p | | e | cs | e |]; try discriminate;
      try (inversion Hu; subst; simpl; auto; fail).
    pose proof (Update_key_frame r m k m' c Hu) as (Hc & _).
    rewrite Hc. split; [| reflexivity].
    unfold Update in Hu.
    destruct (is_quit k).
    { destruct (player m); inversion Hu; subst; assumption. }
    destruct (is_up k).
    { inversion Hu; subst. destruct (0 <? cursor m) eqn:E; simpl; [| lia].
      apply Z.ltb_lt in E. lia. }
    destruct (is_down k).
    { inversion Hu; subst.
      destruct (cursor m <? len (channels m) - 1) eqn:E; simpl; [| lia].
      apply Z.ltb_lt in E. lia. }
    destruct (is_activate k).
    { apply activate_ret in Hu. destruct Hu as (s & ->). simpl. lia. }
    inversion Hu; subst. lia.
  - apply Update_panic_inv in Hu. destruct Hu as (_ & Ha).
    apply addr_index_panic_iff in Ha. lia.
Qed.

(** X7: once the catalog is loaded with the cursor on one of its channels,
    no sequence of events that leaves the catalog alone makes the loop
    panic: every event is handled, the cursor stays the index of a channel
    and the catalog stays the same. *)
Theorem run_never_panics (m : model) (evs : list event) :
  all_msgs keeps_catalog evs ->
  ready m ->
  exists m' cs,
    run m evs = Ret (m', cs) /\
    0 <= cursor m' < len (channels m') /\
    channels m' = channels m.
Proof.
  revert m. induction evs as [| [r msg] evs IH]; intros m Hall Hr.
  - exists m, []. auto.
  - inversion Hall as [| ? ? Hmsg Hrest]; subst. simpl in Hmsg.
    destruct (ready_step r m msg Hmsg Hr) as (m1 & c1 & Hu & Hr1 & Hc1).
    destruct (IH m1 Hrest Hr1) as (m2 & cs2 & Hrun & Hr2 & Hc2).
    exists m2, (scheduled c1 ++ cs2). simpl. rewrite Hu. simpl.
    rewrite Hrun. simpl. split; [reflexivity |].
    split; [exact Hr2 | congruence].
Qed.

Lemma run_never_panics_witness :
  exists m' cs,
    run playingFirst busySession = Ret (m', cs) /\
    0 <= cursor m' < len (channels m') /\
    channels m' = catalog.
Proof.
  apply (run_never_panics playingFirst busySession).
  - repeat constructor.
  - unfold ready, len. simpl. lia.
Defined.

Lemma all_msgs_any (evs : list event) : all_msgs (fun _ => true) evs.
Proof. induction evs; constructor; auto. Qed.

(** X8: whatever the events, new catalogs included, the cursor never
    becomes negative and the loading flag, once cleared, stays cleared. *)
Theorem cursor_and_loading_monotone (m m' : model) (evs : list event)
        (cs : list Cmd) :
  run m evs = Ret (m', cs) ->
  (0 <= cursor m -> 0 <= cursor m') /\
  (loading m = false -> loading m' = false).
Proof.
  intros Hrun. split; intros H0.
  - apply (run_invariant (fun _ => true) (fun s => 0 <= cursor s))
      with (evs := evs) (m := m) (cs := cs);
      [| apply all_msgs_any | exact H0 | exact Hrun].
    clear. intros r m msg m' c _ Hm Hu.
    destruct msg as [k | p | | e | cs | e |];
      try (inversion Hu; subst; simpl; assumption).
    unfold Update in Hu.
    destruct (is_quit k).
    { destruct (player m); inversion Hu; subst; assumption. }
    destruct (is_up k).
    { inversion Hu; subst. destruct (0 <? cursor m) eqn:E; simpl; [| lia].
      apply Z.ltb_lt in E. lia. }
    destruct (is_down k).
    { inversion Hu; subst.
      destruct (cursor m <? len (channels m) - 1); simpl; lia. }
    destruct (is_activate k).
    { apply activate_ret in Hu. destruct Hu as (s & ->). simpl. lia. }
    inversion Hu; subst. lia.
  - apply (run_invariant (fun _ => true) (fun s => loading s = false))
      with (evs := evs) (m := m) (cs := cs);
      [| apply all_msgs_any | exact H0 | exact Hrun].
    clear. intros r m msg m' c _ Hm Hu.
    destruct msg as [k | p | | e | cs | e |];
      try (inversion Hu; subst; simpl; auto; fail).
    apply Update_key_frame in Hu. destruct Hu as (_ & _ & -> & _). exact Hm.
Qed.

Lemma cursor_and_loading_monotone_witness :
  run (set_loading initialModel false) shrinkCatalog = Ret (shrunk, []) /\
  0 <= cursor shrunk /\ loading shrunk = false.
Proof.
  assert (Hrun : run (set_loading initialModel false) shrinkCatalog
                 = Ret (shrunk, [])) by reflexivity.
  destruct (cursor_and_loading_monotone (set_loading initialModel false) shrunk
              shrinkCatalog [] Hrun) as (Hc & Hl).
  split; [exact Hrun |].
  split; [apply Hc; simpl; lia | apply Hl; reflexivity].
Defined.

(** ** The effects [Update] schedules *)

(** X9: a quit key ([q] or [ctrl+c]) leaves the state as it is and
    schedules the end of the program as the last effect, after the stop
    effect for the handle when there is one and with nothing else. *)
Theorem quit_stops_then_quits (r : Resolver) (m : model) (k : string) :
  is_quit k = true ->
  exists c,
    Update r m (KeyMsg k) = Ret (m, Some c) /\
    schedule c = stop_current m ++ [teaQuit].
Proof.
  intros Hk. unfold Update, stop_current. rewrite Hk.
  destruct (player m) as [x |]; eexists; split; reflexivity.
Qed.

Lemma quit_stops_then_quits_witness :
  exists c,
    Update resolveOk playingFirst (KeyMsg "ctrl+c") = Ret (playingFirst, Some c) /\
    schedule c = [stopPlayback (Some mpv); teaQuit].
Proof.
  exact (quit_stops_then_quits resolveOk playingFirst "ctrl+c" eq_refl).
Defined.

Lemma activate_schedule (r : Resolver) (m m' : model) (c : option Cmd) :
  activate r m = Ret (m', c) ->
  scheduled c = [stopPlayback (player m)] \/
  (exists e, scheduled c = [emitErr e]) \/
  (exists url, scheduled c = stop_current m ++ [startPlayback url]).
Proof.
  unfold activate, switchChannel, stop_current.
  destruct (playerSt m);
    destruct (addr_index (channels m) (cursor m)) as [p |]; simpl;
    try discriminate;
    try destruct (ptr_eqb (selected m) (Some p));
    try destruct (r (FastPLS (p_target p))) as [url | e];
    intros H; inversion H; subst; simpl; eauto;
    right; right; exists url; destruct (player m); reflexivity.
Qed.

Lemma Update_schedule (r : Resolver) (m m' : model) (msg : Msg) (c : option Cmd) :
  Update r m msg = Ret (m', c) ->
  scheduled c = [] \/
  scheduled c = stop_current m ++ [teaQuit] \/
  scheduled c = [stopPlayback (player m)] \/
  (exists e, scheduled c = [emitErr e]) \/
  (exists url, scheduled c = stop_current m ++ [startPlayback url]).
Proof.
  destruct msg as [k | p | | e | cs | e |];
    try (intros H; inversion H; subst; auto; fail).
  unfold Update.
  destruct (is_quit k).
  { unfold stop_current.
    destruct (player m); intros H; inversion H; subst; auto. }
  destruct (is_up k); [intros H; inversion H; auto |].
  destruct (is_down k); [intros H; inversion H; auto |].
  destruct (is_activate k); [| intros H; inversion H; auto].
  intros H. apply activate_schedule in H. tauto.
Qed.

(** X10: what one call of Update can schedule.  A stop effect is always
    for the handle the state holds; a start effect is the last effect, is
    the only start, and comes directly after the stop effect for the held
    handle whenever there is a handle; the catalog is never fetched again. *)
Theorem effects_discipline (r : Resolver) (m m' : model) (msg : Msg)
        (c : option Cmd) :
  Update r m msg = Ret (m', c) ->
  (forall h, In (stopPlayback h) (scheduled c) -> h = player m) /\
  (forall url, In (startPlayback url) (scheduled c) ->
               scheduled c = stop_current m ++ [startPlayback url]) /\
  ~ In fetchChannels (scheduled c).
Proof.
  intros Hu. apply Update_schedule in Hu. unfold stop_current in *.
  destruct Hu as [H | [H | [H | [(e & H) | (u & H)]]]]; rewrite H;
    destruct (player m) as [x |]; simpl;
    repeat split; intros; intuition (try discriminate; try congruence).
Qed.

Lemma effects_discipline_witness :
  scheduled (Some (teaSequence [stopPlayback (Some mpv);
                                startPlayback "http://stream.example/a"]))
  = [stopPlayback (Some mpv); startPlayback "http://stream.example/a"].
Proof.
  apply (proj1 (proj2 (effects_discipline resolveOk (set_cursor playingFirst 1)
                          _ (KeyMsg "enter") _ eq_refl))
           "http://stream.example/a").
  simpl. auto.
Defined.

(** ** Playback from key press to completion *)

Lemma switch_success (r : Resolver) (m : model) (b : ChannelPtr)
      (url k : string) :
  addr_index (channels m) (cursor m) = Ret b ->
  ptr_eqb (selected m) (Some b) = false \/ playerSt m = stopped ->
  r (FastPLS (p_target b)) = inl url ->
  is_activate k = true ->
  Update r m (KeyMsg k)
  = Ret (set_selected m (Some b),
         Some (teaSequence (stop_current m ++ [startPlayback url]))).
Proof.
  intros Hb Hsw Hurl Hk.
  rewrite (Update_activate r m k Hk).
  unfold activate, switchChannel, stop_current.
  destruct Hsw as [Hne | Hst].
  - destruct (playerSt m); rewrite Hb; simpl; try rewrite Hne; rewrite Hurl;
      reflexivity.
  - rewrite Hst, Hb; simpl. rewrite Hurl. reflexivity.
Qed.

Lemma addr_index_target (s : slice) (i : Z) (b : ChannelPtr) :
  addr_index s i = Ret b ->
  0 <= i < len s /\
  nth_error (s_elems s) (Z.to_nat i) = Some (p_target b) /\
  p_array b = s_array s /\ p_index b = Z.to_nat i.
Proof.
  intros H.
  assert (Hr : ~ (i < 0 \/ len s <= i)).
  { intros Hc. apply addr_index_panic_iff in Hc. congruence. }
  split; [lia |]. unfold addr_index in H.
  destruct ((i <? 0) || (len s <=? i)); [discriminate |].
  destruct (nth_error (s_elems s) (Z.to_nat i)); inversion H; subst; auto.
Qed.

(** X11: with the player stopped and no handle, activating the channel
    under the cursor, whose stream URL the resolver finds, schedules one
    start effect for that URL and nothing else, and selects that channel.
    When mpv starts, the phase is Playing with the new handle and the
    banner names the title of that channel; when mpv fails to start, the
    phase is Stopped without handle, the error is recorded, the banner is
    empty and the selection is still that channel. *)
Theorem play_from_stopped (r : Resolver) (m : model) (b : ChannelPtr)
        (url k : string) :
  playerSt m = stopped ->
  player m = None ->
  addr_index (channels m) (cursor m) = Ret b ->
  r (FastPLS (p_target b)) = inl url ->
  is_activate k = true ->
  exists m1,
    Update r m (KeyMsg k) = Ret (m1, Some (teaSequence [startPlayback url])) /\
    nth_error (s_elems (channels m)) (Z.to_nat (cursor m)) = Some (p_target b) /\
    (forall r' id t, exists m2,
        Update r' m1 (run_startPlayback (inr id)) = Ret (m2, None) /\
        playerSt m2 = playing /\ player m2 = Some (mkExec id true) /\
        selected m2 = Some b /\
        banner t m2
        = (newline ++ titleStyle t ("Now Playing: " ++ Title (p_target b)))%string) /\
    (forall r' e t, exists m2,
        Update r' m1 (run_startPlayback (inl e)) = Ret (m2, None) /\
        playerSt m2 = stopped /\ player m2 = None /\ err m2 = Some e /\
        selected m2 = Some b /\ banner t m2 = "").
Proof.
  intros Hst Hpl Hb Hurl Hk.
  exists (set_selected m (Some b)). split.
  - rewrite (switch_success r m b url k Hb (or_intror Hst) Hurl Hk).
    unfold stop_current. rewrite Hpl. reflexivity.
  - split; [apply (addr_index_target _ _ _ Hb) |].
    split; intros; eexists; simpl; repeat split.
Qed.

Lemma play_from_stopped_witness :
  exists m1,
    Update resolveOk stoppedFirst (KeyMsg "enter")
    = Ret (m1, Some (teaSequence [startPlayback "http://stream.example/a"])) /\
    nth_error (s_elems catalog) 0 = Some grooveSalad.
Proof.
  destruct (play_from_stopped resolveOk stoppedFirst (mkPtr 1 0 grooveSalad)
              "http://stream.example/a" "enter"
              eq_refl eq_refl eq_refl eq_refl eq_refl)
    as (m1 & Hu & Hn & _).
  exists m1. split; [exact Hu | exact Hn].
Defined.

(** X12: a switch carried to its end.  While playing A with a handle,
    activating another channel B whose URL resolves, then the completion
    of the stop effect and the successful completion of the start effect,
    end in the phase Playing with the new handle and B selected.  A kill
    that failed leaves its error as the last error and does not prevent
    the start. *)
Theorem switch_completes (r r1 r2 : Resolver) (m : model) (b : ChannelPtr)
        (x : ExecCmd) (url k : string) (killed : option Error) (id : nat) :
  player m = Some x ->
  addr_index (channels m) (cursor m) = Ret b ->
  ptr_eqb (selected m) (Some b) = false ->
  r (FastPLS (p_target b)) = inl url ->
  is_activate k = true ->
  exists m',
    run m [(r, KeyMsg k);
           (r1, run_stopPlayback (Some x) killed);
           (r2, run_startPlayback (inr id))]
    = Ret (m', [stopPlayback (Some x); startPlayback url]) /\
    playerSt m' = playing /\
    player m' = Some (mkExec id true) /\
    selected m' = Some b /\
    err m' = match run_stopPlayback (Some x) killed with
             | playbackErrorMsg e => e
             | _ => err m
             end.
Proof.
  intros Hpl Hb Hne Hurl Hk.
  pose proof (switch_success r m b url k Hb (or_introl Hne) Hurl Hk) as Hu.
  unfold stop_current in Hu. rewrite Hpl in Hu. simpl app in Hu.
  cbn [run]. rewrite Hu. cbn [bind fst snd].
  unfold run_stopPlayback.
  destruct (x_has_process x); [destruct killed as [e |] |];
    eexists; (split; [reflexivity | simpl; repeat split]).
Qed.

Lemma switch_completes_witness :
  exists m',
    run (set_cursor playingFirst 1)
        [(resolveOk, KeyMsg "enter");
         (resolveOk, run_stopPlayback (Some mpv) (Some "os: process already finished"));
         (resolveOk, run_startPlayback (inr 8%nat))]
    = Ret (m', [stopPlayback (Some mpv); startPlayback "http://stream.example/a"]) /\
    playerSt m' = playing /\ player m' = Some (mkExec 8 true) /\
    err m' = Some "os: process already finished".
Proof.
  destruct (switch_completes resolveOk resolveOk resolveOk
              (set_cursor playingFirst 1) (mkPtr 1 1 dronezone) mpv
              "http://stream.example/a" "enter"
              (Some "os: process already finished") 8
              eq_refl eq_refl eq_refl eq_refl eq_refl)
    as (m' & Hr & Hp & Hh & _ & He).
  exists m'. split; [exact Hr |]. split; [exact Hp |]. split; [exact Hh |].
  exact He.
Defined.

(** X13: stopping nothing is not an error.  The stop closure reports
    PlaybackStopped without a kill for a nil command and for a command
    without process, and otherwise reports the outcome of the kill; the
    start closure hands the started command over or reports the error.
    Handling any of these completions leaves handle and phase in step. *)
Theorem closures_complete (r : Resolver) (m : model) :
  (forall killed, run_stopPlayback None killed = stopPlaybackMsg) /\
  (forall id killed, run_stopPlayback (Some (mkExec id false)) killed
                     = stopPlaybackMsg) /\
  (forall id e, run_stopPlayback (Some (mkExec id true)) (Some e)
                = playbackErrorMsg (Some e)) /\
  (forall cmd killed, exists m',
      Update r m (run_stopPlayback cmd killed) = Ret (m', None) /\
      playerSt m' = stopped /\ player m' = None /\
      selected m' = selected m) /\
  (forall started, exists m',
      Update r m (run_startPlayback started) = Ret (m', None) /\
      (player m' <> None <-> playerSt m' = playing) /\
      (player m' <> None <-> exists id, started = inr id)).
Proof.
  repeat split; try reflexivity.
  - intros cmd killed. unfold run_stopPlayback.
    destruct cmd as [c |]; [destruct (x_has_process c); [destruct killed |] |];
      eexists; simpl; repeat split.
  - intros [e | id]; eexists; (split; [reflexivity |]); simpl; split; split;
      try discriminate; eauto.
    + intros H. exfalso. apply H. reflexivity.
    + intros H. exfalso. apply H. reflexivity.
    + intros (id & H). discriminate.
Qed.

(** ** The error frame *)

(** X14: the error frame is final.  Once the catalog has been answered
    and an error is recorded, every later frame, after whatever delivered
    events, is an error frame: the styled line of the last error and
    nothing else, no channel list and no banner. *)
Theorem error_frame_is_final (m m' : model) (evs : list event) (cs : list Cmd) :
  all_delivered evs ->
  err m <> None ->
  loading m = false ->
  run m evs = Ret (m', cs) ->
  exists e,
    err m' = Some e /\
    forall t, View t m' = errorStyle t ("Error: " ++ e ++ newline)%string.
Proof.
  intros Hd He Hl Hrun.
  assert (H : err m' <> None /\ loading m' = false).
  { apply (run_invariant delivered
             (fun s => err s <> None /\ loading s = false))
      with (evs := evs) (m := m) (cs := cs); auto.
    clear. intros r m msg m' c Hd (He & Hl) Hu. split.
    - exact (err_present_step r m msg m' c Hd He Hu).
    - destruct msg as [k | p | | e | cs | e |];
        try (inversion Hu; subst; simpl; auto; fail).
      apply Update_key_frame in Hu. destruct Hu as (_ & _ & -> & _). exact Hl. }
  destruct H as (He' & Hl').
  destruct (err m') as [e |] eqn:E; [| congruence].
  exists e. split; [reflexivity |].
  intros t. unfold View. rewrite Hl', E. reflexivity.
Qed.

Lemma error_frame_is_final_witness :
  exists m' cs,
    run (set_err stoppedFirst (Some "exit status 1")) afterFailure = Ret (m', cs) /\
    View plainTerminal m' = ("Error: exit status 1" ++ newline)%string.
Proof.
  eexists. eexists. split; [reflexivity |].
  assert (Hd : all_delivered afterFailure) by (repeat constructor).
  assert (He : err (set_err stoppedFirst (Some "exit status 1")) <> None)
    by discriminate.
  destruct (error_frame_is_final (set_err stoppedFirst (Some "exit status 1")) _
              afterFailure _ Hd He eq_refl eq_refl) as (e & Herr & Hv).
  rewrite Hv. simpl in Herr. inversion Herr. reflexivity.
Defined.

(** ** The list frame *)

Lemma length_substring0 (n : nat) (s : string) :
  String.length (substring 0 n s) = Nat.min n (String.length s).
Proof.
  revert s. induction n as [| n IH]; intros [| c s]; simpl; auto.
Qed.

Lemma substring0_append (a b : string) :
  substring 0 (String.length a) (a ++ b) = a.
Proof.
  induction a as [| c a IH]; simpl.
  - destruct b; reflexivity.
  - rewrite IH. reflexivity.
Qed.

Lemma length_spaces (n : nat) : String.length (spaces n) = n.
Proof. induction n; simpl; auto. Qed.

Lemma truncate_length_le (width : Z) (s : string) :
  3 <= width -> Z.of_nat (String.length (truncate width s)) <= width.
Proof.
  intros Hw. unfold truncate.
  destruct (width - 3 <? Z.of_nat (String.length s)) eqn:E.
  - apply Z.ltb_lt in E. rewrite length_append, length_substring0. simpl. lia.
  - apply Z.ltb_ge in E. lia.
Qed.

(** X15: the truncation of titles and genres, for a column of three bytes
    or more: the result never has more bytes than the column; a text of at
    most width-3 bytes is kept as it is, a longer one, also one that would
    fit the column, becomes its first width-3 bytes and three dots,
    exactly as wide as the column; truncating again changes nothing. *)
Theorem truncate_fits (width : Z) (s : string) :
  3 <= width ->
  Z.of_nat (String.length (truncate width s)) <= width /\
  (Z.of_nat (String.length s) <= width - 3 -> truncate width s = s) /\
  (width - 3 < Z.of_nat (String.length s) ->
   truncate width s = (substring 0 (Z.to_nat (width - 3)) s ++ "...")%string /\
   Z.of_nat (String.length (truncate width s)) = width) /\
  truncate width (truncate width s) = truncate width s.
Proof.
  intros Hw.
  assert (Hlong : width - 3 < Z.of_nat (String.length s) ->
                  truncate width s
                  = (substring 0 (Z.to_nat (width - 3)) s ++ "...")%string /\
                  String.length (substring 0 (Z.to_nat (width - 3)) s)
                  = Z.to_nat (width - 3)).
  { intros H. unfold truncate. apply Z.ltb_lt in H. rewrite H.
    split; [reflexivity |]. rewrite length_substring0.
    apply Z.ltb_lt in H. lia. }
  assert (Hshort : Z.of_nat (String.length s) <= width - 3 -> truncate width s = s).
  { intros H. unfold truncate.
    destruct (width - 3 <? Z.of_nat (String.length s)) eqn:E; [| reflexivity].
    apply Z.ltb_lt in E. lia. }
  assert (Hcase : Z.of_nat (String.length s) <= width - 3 \/
                  width - 3 < Z.of_nat (String.length s)) by lia.
  destruct Hcase as [Hle | Hgt].
  - rewrite (Hshort Hle). repeat split; try lia; try (intros; lia).
    apply Hshort. exact Hle.
  - destruct (Hlong Hgt) as (Ht & Hlen).
    assert (Hl : Z.of_nat (String.length (truncate width s)) = width).
    { rewrite Ht, length_append, Hlen. simpl. lia. }
    repeat split; try lia; auto.
    rewrite Ht at 1. unfold truncate at 1.
    rewrite <- Ht, Hl.
    assert (E : (width - 3 <? width) = true) by (apply Z.ltb_lt; lia).
    rewrite E. rewrite Ht at 1. rewrite <- Hlen at 1.
    rewrite substring0_append. symmetry. exact Ht.
Qed.

Lemma truncate_fits_witness :
  truncate titleWidth "Groove Salad Classic: The Early Years"
  = "Groove Salad Classic: The E...".
Proof.
  destruct (truncate_fits titleWidth "Groove Salad Classic: The Early Years")
    as (_ & _ & Hlong & _); [unfold titleWidth; lia |].
  destruct Hlong as (Ht & _); [unfold titleWidth; simpl; lia |].
  rewrite Ht. reflexivity.
Defined.

Lemma padRight_length (t : Terminal) (width : Z) (s : string) :
  runeCount t s = Z.of_nat (String.length s) ->
  Z.of_nat (String.length s) <= width ->
  Z.of_nat (String.length (padRight t width s)) = width /\
  prefix s (padRight t width s) = true.
Proof.
  intros Hr Hle. unfold padRight. split; [| apply prefix_append].
  rewrite length_append, length_spaces, Hr. lia.
Qed.

(** X16: the layout of a row whose truncated title and genre count one
    byte per rune: the cursor mark or two spaces, the title in a column of
    30 bytes, a space, the genre in a column of 25 bytes, and the listener
    count in brackets, so that the count starts at the same offset in every
    such row; the row under the cursor, and only that row, carries the mark
    and the style of the selection. *)
Theorem row_layout (t : Terminal) (m : model) (i : Z) (c : Channel) :
  runeCount t (truncate titleWidth (Title c))
  = Z.of_nat (String.length (truncate titleWidth (Title c))) ->
  runeCount t (truncate genreWidth (Genre c))
  = Z.of_nat (String.length (truncate genreWidth (Genre c))) ->
  exists title genre,
    String.length title = 30%nat /\
    String.length genre = 25%nat /\
    prefix (truncate titleWidth (Title c)) title = true /\
    prefix (truncate genreWidth (Genre c)) genre = true /\
    row t m i c
    = if i =? cursor m
      then selectedStyle t ("> " ++ title ++ " " ++ genre ++ " ["
                            ++ decimal (Listeners c) ++ "]" ++ newline)%string
      else ("  " ++ title ++ " " ++ genre ++ " ["
            ++ decimal (Listeners c) ++ "]" ++ newline)%string.
Proof.
  intros Ht Hg.
  destruct (padRight_length t titleWidth _ Ht) as (Hlt & Hpt);
    [apply truncate_length_le; unfold titleWidth; lia |].
  destruct (padRight_length t genreWidth _ Hg) as (Hlg & Hpg);
    [apply truncate_length_le; unfold genreWidth; lia |].
  exists (padRight t titleWidth (truncate titleWidth (Title c))),
         (padRight t genreWidth (truncate genreWidth (Genre c))).
  split; [apply Nat2Z.inj; rewrite Hlt; reflexivity |].
  split; [apply Nat2Z.inj; rewrite Hlg; reflexivity |].
  split; [exact Hpt |]. split; [exact Hpg |].
  unfold row. destruct (i =? cursor m); reflexivity.
Qed.

Lemma row_layout_witness :
  row plainTerminal playingFirst 0 grooveSalad
  = ("> Groove Salad                   ambient|electronica       [1200]"
     ++ newline)%string /\
  row plainTerminal playingFirst 2 lush
  = ("  Lush                           vocals                    [300]"
     ++ newline)%string.
Proof.
  split.
  - destruct (row_layout plainTerminal playingFirst 0 grooveSalad eq_refl eq_refl)
      as (title & genre & _ & _ & _ & _ & H).
    reflexivity.
  - destruct (row_layout plainTerminal playingFirst 2 lush eq_refl eq_refl)
      as (title & genre & _ & _ & _ & _ & H).
    reflexivity.
Defined.

Lemma rows_app (t : Terminal) (m : model) (above below : list Channel) :
  forall i,
    rows t m i (above ++ below)
    = (rows t m i above
       ++ rows t m (i + Z.of_nat (length above)) below)%string.
Proof.
  induction above as [| c above IH]; intros i; simpl rows.
  - simpl. rewrite Z.add_0_r. reflexivity.
  - rewrite IH, append_assoc. simpl length.
    replace (i + 1 + Z.of_nat (length above))
      with (i + Z.of_nat (S (length above))) by lia.
    reflexivity.
Qed.

(** X17: the list frame.  With the catalog answered and no error
    recorded, the frame is the styled header, one row per channel in the
    order of the catalog, each row numbered by its index, then the banner
    and the footer: the row of the channel at index i stands after the rows
    of the channels above it and before those of the channels below. *)
Theorem list_frame (t : Terminal) (m : model) (i : nat) (c : Channel) :
  loading m = false ->
  err m = None ->
  nth_error (s_elems (channels m)) i = Some c ->
  exists above below,
    s_elems (channels m) = above ++ c :: below /\
    length above = i /\
    View t m
    = (titleStyle t ("🎵 SomaFM Channels" ++ newline ++ newline)
       ++ rows t m 0 above
       ++ row t m (Z.of_nat i) c
       ++ rows t m (Z.of_nat i + 1) below
       ++ banner t m ++ footer)%string.
Proof.
  intros Hl He Hn.
  destruct (nth_error_split _ _ Hn) as (above & below & Hs & Hlen).
  exists above, below. split; [exact Hs |]. split; [exact Hlen |].
  unfold View. rewrite Hl, He, Hs, rows_app. simpl rows.
  rewrite Hlen, !append_assoc. reflexivity.
Qed.

Lemma list_frame_witness :
  exists above below,
    s_elems catalog = above ++ dronezone :: below /\ length above = 1%nat.
Proof.
  destruct (list_frame plainTerminal playingFirst 1 dronezone
              eq_refl eq_refl eq_refl) as (above & below & Hs & Hlen & _).
  exists above, below. split; [exact Hs | exact Hlen].
Defined.

(** ** Start of the program *)

(** X18: the program starts by fetching the catalog, and the answer ends
    the loading phase whatever it is.  A fetched catalog is stored, with the
    cursor on its first channel, nothing selected, the player stopped and
    no error; a failed request or decoding leaves the catalog empty and
    its error as the last error, and the frame is the error frame. *)
Theorem startup (trimSpace : string -> string)
        (response : Error + (Error + slice)) (r : Resolver) :
  Init initialModel = fetchChannels /\
  exists m',
    Update r initialModel (fetchChannels_msg trimSpace response) = Ret (m', None) /\
    loading m' = false /\ cursor m' = 0 /\ selected m' = None /\
    playerSt m' = stopped /\ player m' = None /\
    match response with
    | inr (inr cs) =>
        err m' = None /\
        s_array (channels m') = s_array cs /\
        s_elems (channels m') = map (normalizeChannel trimSpace) (s_elems cs) /\
        (s_elems cs <> [] -> 0 <= cursor m' < len (channels m'))
    | inl e | inr (inl e) =>
        err m' = Some e /\ s_elems (channels m') = [] /\
        forall t, View t m' = errorStyle t ("Error: " ++ e ++ newline)%string
    end.
Proof.
  split; [reflexivity |].
  destruct response as [e | [e | cs]]; eexists; (split; [reflexivity |]);
    simpl; repeat split; try lia.
  unfold len. simpl. rewrite length_map.
  destruct (s_elems cs); [congruence | simpl; lia].
Qed.
